(** * django-toosimple-q: the worker's tick engine

    Shallow embedding of [django_toosimple_q/management/commands/worker.py]:
    the [Command.tick] method (orphan reconciliation, schedule evaluation,
    wake-up of sleeping tasks, claim of one task, execution of the claimed
    task) and the outer loop of [Command.handle].

    The database tables are finite maps from primary keys to rows, the
    registries are the lists of their values, and the effects of the
    command (table updates, clock readings, calls into the task and
    schedule objects, sleeping) are threaded through a small monad that
    also records the sequence of operations performed. *)

From stdpp Require Import gmap strings list fin_maps sorting.
From Stdlib Require Import ZArith Lia.

Local Open Scope Z_scope.

(** ** Data model *)

(** Modelled from the spec: [models.py] is not part of the sources; the
    fields and the states of [TaskExec] are those of section 3. *)
Module TaskExec.

Inductive States : Set :=
| QUEUED | SLEEPING | PROCESSING | SUCCEEDED | FAILED | INVALID.

#[global] Instance States_eq_dec : EqDecision States.
Proof. solve_decision. Defined.

Record t : Set := Build {
  task_name : string;
  state : States;
  due : Z;
  created : Z;
  started : option Z;
  result : option string;
  error : option string
}.

#[global] Instance t_eq_dec : EqDecision t.
Proof. solve_decision. Defined.

Definition set_state (st : States) (r : t) : t :=
  Build (task_name r) st (due r) (created r) (started r) (result r) (error r).

Definition set_started (ts : Z) (r : t) : t :=
  Build (task_name r) (state r) (due r) (created r) (Some ts) (result r) (error r).

Definition set_result (v : string) (r : t) : t :=
  Build (task_name r) (state r) (due r) (created r) (started r) (Some v) (error r).

Definition set_error (v : string) (r : t) : t :=
  Build (task_name r) (state r) (due r) (created r) (started r) (result r) (Some v).

End TaskExec.

(** Modelled from the spec: [models.py] is not part of the sources; a
    [ScheduleExec] row carries its name, its state and its bookkeeping. *)
Module ScheduleExec.

Inductive States : Set := ACTIVE | INVALID.

#[global] Instance States_eq_dec : EqDecision States.
Proof. solve_decision. Defined.

Record t : Set := Build {
  name : string;
  state : States;
  last_run : option Z
}.

#[global] Instance t_eq_dec : EqDecision t.
Proof. solve_decision. Defined.

Definition set_state (st : States) (r : t) : t :=
  Build (name r) st (last_run r).

End ScheduleExec.

(** The store: [TaskExec.objects], [ScheduleExec.objects], and the wall
    clock.  [timezone.now()] is an oracle: the [reads]-th call returns
    [clock reads]. *)
Record Store : Type := mkStore {
  task_execs : gmap positive TaskExec.t;
  schedule_execs : gmap positive ScheduleExec.t;
  clock : nat → Z;
  reads : nat
}.

Definition with_task_execs (tbl : gmap positive TaskExec.t) (s : Store) : Store :=
  mkStore tbl (schedule_execs s) (clock s) (reads s).

Definition with_schedule_execs (tbl : gmap positive ScheduleExec.t) (s : Store) : Store :=
  mkStore (task_execs s) tbl (clock s) (reads s).

Definition with_reads (n : nat) (s : Store) : Store :=
  mkStore (task_execs s) (schedule_execs s) (clock s) n.

(** Modelled from the spec: [registry.py] is not part of the sources.  A
    task definition has a name (the unique key of the registry), a
    priority, a queue and a callable that returns a result or raises a
    failure, both as data. *)
Record Task : Type := mkTask {
  task_name : string;
  priority : Z;
  task_queue : string;
  callable : Store → Store * (string + string)
}.

(** Modelled from the spec: a schedule definition has a name (the unique
    key of the registry) and a queue. *)
Record Schedule : Type := mkSchedule {
  schedule_name : string;
  schedule_queue : string
}.

(** [tasks_registry.values()] and [schedules_registry.values()], in the
    order of the dictionary. *)
Record Registries : Type := mkRegistries {
  tasks_registry : list Task;
  schedules_registry : list Schedule
}.

(** [registry.keys()] *)
Definition task_keys (reg : list Task) : list string := task_name <$> reg.
Definition schedule_keys (reg : list Schedule) : list string := schedule_name <$> reg.

(** [tasks_registry[name]]: [None] stands for [KeyError]. *)
Definition getitem (reg : list Task) (key : string) : option Task :=
  list_find (λ t, task_name t = key) reg ≫= λ p, Some p.2.

(** Modelled from the spec: [for_queue] itself is in [registry.py]; it
    keeps the definitions whose queue is in the inclusion list when one is
    given, else those whose queue is not in the exclusion list when one is
    given, else all of them.  An option that was not passed is []. *)
Definition queue_passes (queues excluded_queues : list string) (q : string) : bool :=
  match queues, excluded_queues with
  | _ :: _, _ => bool_decide (q ∈ queues)
  | [], _ :: _ => bool_decide (q ∉ excluded_queues)
  | [], [] => true
  end.

Definition for_queue {A} (queue_of : A → string) (reg : list A)
    (queues excluded_queues : list string) : list A :=
  filter (λ d, queue_passes queues excluded_queues (queue_of d)) reg.

(** The options of the command. *)
Record Options : Type := mkOptions {
  queue : list string;
  exclude_queue : list string;
  once : bool;
  until_done : bool;
  tick_opt : Z
}.

(** ** Effects *)

Inductive Exc : Set :=
| KeyError (key : string)
| Error (msg : string).

#[global] Instance Exc_eq_dec : EqDecision Exc.
Proof. solve_decision. Defined.

(** The operations a run performs, in the order it performs them. *)
Inductive Event : Set :=
| Begin                                   (* entering [transaction.atomic()] *)
| Commit                                  (* leaving it *)
| UpdateSchedules (count : nat)           (* [ScheduleExec...update(state=INVALID)] *)
| UpdateTasks (st : TaskExec.States) (count : nat) (* [TaskExec...update(state=st)] *)
| ScheduleExecute (name : string) (r : Exc + bool) (* [schedule.execute(..)] returned or raised *)
| SelectForUpdateFirst (row : option positive)     (* [.select_for_update().first()] *)
| Save (row : positive)                            (* [task_exec.save()] *)
| TaskExecute (row : positive) (r : Exc + bool)    (* [task.execute(task_exec)] returned or raised *)
| Sleep (seconds : Z).                             (* [time.sleep(seconds)] *)

#[global] Instance Event_eq_dec : EqDecision Event.
Proof. solve_decision. Defined.

Record Outcome (A : Type) : Type := mkOutcome {
  emitted : list Event;
  final : Store;
  value : Exc + A
}.
Arguments mkOutcome {A} _ _ _.
Arguments emitted {A} _.
Arguments final {A} _.
Arguments value {A} _.

Definition M (A : Type) : Type := Store → Outcome A.

Definition ret {A} (a : A) : M A := λ s, mkOutcome [] s (inr a).

Definition raise {A} (e : Exc) : M A := λ s, mkOutcome [] s (inl e).

Definition bind {A B} (m : M A) (f : A → M B) : M B := λ s,
  let o := m s in
  match value o with
  | inl e => mkOutcome (emitted o) (final o) (inl e)
  | inr a =>
      let o' := f a (final o) in
      mkOutcome (emitted o ++ emitted o') (final o') (value o')
  end.

#[global] Instance M_ret : MRet M := @ret.
#[global] Instance M_bind : MBind M := λ A B f m, bind m f.

Definition emit (e : Event) : M unit := λ s, mkOutcome [e] s (inr tt).

Definition get : M Store := λ s, mkOutcome [] s (inr s).

Definition modify (f : Store → Store) : M unit := λ s, mkOutcome [] (f s) (inr tt).

(** [timezone.now()] *)
Definition now : M Z := λ s,
  mkOutcome [] (with_reads (S (reads s)) s) (inr (clock s (reads s))).

(** A call into code outside the command: it transforms the store and
    returns or raises; the call is recorded with its outcome. *)
Definition call {A} (ev : Exc + A → Event) (f : Store → Store * (Exc + A)) : M A := λ s,
  mkOutcome [ev (f s).2] (f s).1 (f s).2.

(** [with transaction.atomic(): body] *)
Definition atomic {A} (body : M A) : M A :=
  emit Begin ;; a ← body; emit Commit ;; ret a.

(** ** Queries *)

(** [queryset.update(...)]: the rows that satisfy [P] are replaced by
    their image under [f]; the number of matched rows is returned. *)
Definition update {A} (P : A → bool) (f : A → A) (tbl : gmap positive A)
    : nat * gmap positive A :=
  (size (filter (λ kv : positive * A, P kv.2) tbl),
   (λ r, if P r then f r else r) <$> tbl).

(** [ScheduleExec.objects.exclude(state=INVALID).exclude(name__in=keys)] *)
Definition orphaned_schedule (keys : list string) (r : ScheduleExec.t) : bool :=
  negb (bool_decide (ScheduleExec.state r = ScheduleExec.INVALID))
  && negb (bool_decide (ScheduleExec.name r ∈ keys)).

(** [TaskExec.objects.exclude(state=INVALID).exclude(task_name__in=keys)] *)
Definition orphaned_task (keys : list string) (r : TaskExec.t) : bool :=
  negb (bool_decide (TaskExec.state r = TaskExec.INVALID))
  && negb (bool_decide (TaskExec.task_name r ∈ keys)).

(** [TaskExec.objects.filter(state=SLEEPING).filter(due__lte=now)] *)
Definition sleeping_due (now : Z) (r : TaskExec.t) : bool :=
  bool_decide (TaskExec.state r = TaskExec.SLEEPING)
  && bool_decide (TaskExec.due r ≤ now).

(** The [Case(When(task_name=task.name, then=Value(-task.priority)) ...,
    default=Value(0))] expression: the first matching [When] decides. *)
Fixpoint order_by_priority_clause (reg : list Task) (r : TaskExec.t) : Z :=
  match reg with
  | [] => 0
  | task :: reg' =>
      if bool_decide (TaskExec.task_name r = task_name task)
      then - priority task
      else order_by_priority_clause reg' r
  end.

(** [.order_by(order_by_priority_clause, "due", "created")]: ascending,
    lexicographic. *)
Definition order_key (reg : list Task) (r : TaskExec.t) : Z * Z * Z :=
  (order_by_priority_clause reg r, TaskExec.due r, TaskExec.created r).

Definition key_le (k1 k2 : Z * Z * Z) : Prop :=
  let '(a1, b1, c1) := k1 in
  let '(a2, b2, c2) := k2 in
  a1 < a2 ∨ (a1 = a2 ∧ (b1 < b2 ∨ (b1 = b2 ∧ c1 ≤ c2))).

Definition row_le (reg : list Task) (x y : positive * TaskExec.t) : Prop :=
  key_le (order_key reg x.2) (order_key reg y.2).

#[global] Instance key_le_dec k1 k2 : Decision (key_le k1 k2).
Proof. destruct k1 as [[a1 b1] c1], k2 as [[a2 b2] c2]. simpl. apply _. Defined.

#[global] Instance row_le_dec reg x y : Decision (row_le reg x y).
Proof. unfold row_le. apply _. Defined.

(** [.filter(state=QUEUED).filter(task_name__in=[t.name for t in tasks_to_check])] *)
Definition queued_for (names : list string) (r : TaskExec.t) : bool :=
  bool_decide (TaskExec.state r = TaskExec.QUEUED)
  && bool_decide (TaskExec.task_name r ∈ names).

(** The ordered queryset [tasks_execs] evaluated on a table.  Rows whose
    keys are equal come in an order the database chooses; here it is the
    one of the stable sort over the table's enumeration. *)
Definition tasks_execs (reg : list Task) (names : list string)
    (tbl : gmap positive TaskExec.t) : list (positive * TaskExec.t) :=
  merge_sort (row_le reg)
    (filter (λ kv : positive * TaskExec.t, queued_for names kv.2) (map_to_list tbl)).

(** [.first()] *)
Definition first {A} (rows : list A) : option A := head rows.

(** ** The command *)

(** How a turn of the [while True] loop ends: with a [break], or by
    going on to the next turn with a new [last_run]. *)
Inductive Flow : Set := Break | Continue (last_run : Z).

(** The loop has no bound of its own; the model runs it on fuel, and
    tells a loop that left through a [break] from one that was still
    running when the fuel ran out. *)
Inductive Status : Set := Exited | Running.

Section Command.

(** The registries, the options, and the two methods of the registered
    objects that the command calls: [Schedule.execute] and
    [Task.execute] are defined outside the command. *)
Variable registry : Registries.
Variable options : Options.
Variable schedule_execute : Schedule → Z → Store → Store * (Exc + bool).
Variable task_execute : Task → positive * TaskExec.t → Store → Store * (Exc + bool).

(** [self.queues], [self.excluded_queues], [self.tick_duration] *)
Definition queues : list string := queue options.
Definition excluded_queues : list string := exclude_queue options.
Definition tick_duration : Z := tick_opt options.

Definition update_schedules (P : ScheduleExec.t → bool) (st : ScheduleExec.States)
    : M nat :=
  s ← get;
  let r := update P (ScheduleExec.set_state st) (schedule_execs s) in
  modify (with_schedule_execs r.2) ;;
  emit (UpdateSchedules r.1) ;;
  mret r.1.

Definition update_tasks (P : TaskExec.t → bool) (st : TaskExec.States) : M nat :=
  s ← get;
  let r := update P (TaskExec.set_state st) (task_execs s) in
  modify (with_task_execs r.2) ;;
  emit (UpdateTasks st r.1) ;;
  mret r.1.

(** "Disabling orphaned schedules..." *)
Definition disable_orphaned_schedules : M unit :=
  atomic (
    count ← update_schedules
      (orphaned_schedule (schedule_keys (schedules_registry registry)))
      ScheduleExec.INVALID;
    mret tt).

(** "Disabling orphaned tasks..." *)
Definition disable_orphaned_tasks : M unit :=
  atomic (
    count ← update_tasks
      (orphaned_task (task_keys (tasks_registry registry)))
      TaskExec.INVALID;
    mret tt).

(** "Checking schedules...": [did_something |= schedule.execute(..)]
    for every schedule of the filtered registry. *)
Fixpoint check_schedules (schedules_to_check : list Schedule) (did_something : bool)
    : M bool :=
  match schedules_to_check with
  | [] => mret did_something
  | schedule :: rest =>
      did ← call (ScheduleExecute (schedule_name schedule))
              (schedule_execute schedule tick_duration);
      check_schedules rest (did_something || did)
  end.

(** "Waking up tasks..." *)
Definition wake_up_tasks : M unit :=
  t ← now;
  count ← update_tasks (sleeping_due t) TaskExec.QUEUED;
  mret tt.

(** "Checking tasks...": the claim of the first row of the ordered
    queryset. *)
Definition tasks_to_check : list Task :=
  for_queue task_queue (tasks_registry registry) queues excluded_queues.

Definition select_for_update_first : M (option (positive * TaskExec.t)) :=
  s ← get;
  let row := first (tasks_execs (tasks_registry registry)
                      (task_name <$> tasks_to_check) (task_execs s)) in
  emit (SelectForUpdateFirst (fst <$> row)) ;;
  mret row.

Definition save (task_exec : positive * TaskExec.t) : M unit :=
  modify (λ s, with_task_execs (<[task_exec.1 := task_exec.2]> (task_execs s)) s) ;;
  emit (Save task_exec.1).

Definition claim : M (option (positive * TaskExec.t)) :=
  atomic (
    task_exec ← select_for_update_first;
    match task_exec with
    | Some (pk, row) =>
        t ← now;
        let row := TaskExec.set_state TaskExec.PROCESSING (TaskExec.set_started t row) in
        save (pk, row) ;;
        mret (Some (pk, row))
    | None => mret None
    end).

(** [if task_exec: task = tasks_registry[..]; did_something |= task.execute(task_exec)] *)
Definition execute_claimed (task_exec : option (positive * TaskExec.t))
    (did_something : bool) : M bool :=
  match task_exec with
  | Some te =>
      match getitem (tasks_registry registry) (TaskExec.task_name te.2) with
      | Some task =>
          did ← call (TaskExecute te.1) (task_execute task te);
          mret (did_something || did)
      | None => raise (KeyError (TaskExec.task_name te.2))
      end
  | None => mret did_something
  end.

(** [Command.tick] *)
Definition tick : M bool :=
  let did_something := false in
  disable_orphaned_schedules ;;
  disable_orphaned_tasks ;;
  let schedules_to_check :=
    for_queue schedule_queue (schedules_registry registry) queues excluded_queues in
  did_something ← check_schedules schedules_to_check did_something;
  wake_up_tasks ;;
  task_exec ← claim;
  execute_claimed task_exec did_something.

(** One turn of the [while True] loop of [Command.handle]. *)
Definition iteration (last_run : Z) : M Flow :=
  did_something ← tick;
  if once options then mret Break
  else if until_done options && negb did_something then mret Break
  else
    (if negb did_something
     then t ← now;
          let dt := t - last_run in
          emit (Sleep (Z.max 0 (tick_duration - dt)))
     else mret tt) ;;
    last_run ← now;
    mret (Continue last_run).

Fixpoint loop (fuel : nat) (last_run : Z) : M Status :=
  match fuel with
  | O => mret Running
  | S fuel' =>
      flow ← iteration last_run;
      match flow with
      | Break => mret Exited
      | Continue last_run' => loop fuel' last_run'
      end
  end.

(** [Command.handle], after the options are read. *)
Definition handle (fuel : nat) : M Status :=
  last_run ← now;
  loop fuel last_run.

Definition schedules_to_check : list Schedule :=
  for_queue schedule_queue (schedules_registry registry) queues excluded_queues.

(** The tick up to and including the claim. *)
Definition tick_until_claim : M (bool * option (positive * TaskExec.t)) :=
  disable_orphaned_schedules ;;
  disable_orphaned_tasks ;;
  did_something ← check_schedules schedules_to_check false;
  wake_up_tasks ;;
  task_exec ← claim;
  mret (did_something, task_exec).

End Command.

(** Modelled from the spec: [Task.execute] is in [task.py], which is not
    part of the sources.  Section 4.5: invoke the callable; on normal
    return set state SUCCEEDED and store the result; on any raised failure
    set state FAILED and store the failure detail; the failure does not
    propagate; returns whether execution happened (always true). *)
Definition Task_execute (task : Task) (task_exec : positive * TaskExec.t) (s : Store)
    : Store * (Exc + bool) :=
  let r := callable task s in
  let row :=
    match r.2 with
    | inl v => TaskExec.set_result v (TaskExec.set_state TaskExec.SUCCEEDED task_exec.2)
    | inr detail => TaskExec.set_error detail (TaskExec.set_state TaskExec.FAILED task_exec.2)
    end in
  (with_task_execs (<[task_exec.1 := row]> (task_execs r.1)) r.1, inr true).

(** ** Observations on rows and traces *)

(** What section 4.4 says of the rows the claimer considers and of their
    order, to be compared with the queryset of the command. *)
Definition definition_priority (reg : list Task) (r : TaskExec.t) : Z :=
  match getitem reg (TaskExec.task_name r) with
  | Some task => priority task
  | None => 0
  end.

Definition eligible (registry : Registries) (options : Options) (r : TaskExec.t) : Prop :=
  TaskExec.state r = TaskExec.QUEUED
  ∧ ∃ task, task ∈ tasks_registry registry
      ∧ task_name task = TaskExec.task_name r
      ∧ queue_passes (queue options) (exclude_queue options) (task_queue task) = true.

Definition claimed_no_later (reg : list Task) (r1 r2 : TaskExec.t) : Prop :=
  definition_priority reg r1 > definition_priority reg r2
  ∨ (definition_priority reg r1 = definition_priority reg r2
     ∧ (TaskExec.due r1 < TaskExec.due r2
        ∨ (TaskExec.due r1 = TaskExec.due r2
           ∧ TaskExec.created r1 ≤ TaskExec.created r2))).

(** What an operation reports to [did_something]. *)
Definition reported (e : Event) : bool :=
  match e with
  | ScheduleExecute _ (inr did) | TaskExecute _ (inr did) => did
  | _ => false
  end.

(** The phase an operation belongs to; the transaction brackets and the
    sleep of the outer loop belong to none. *)
Definition phase (e : Event) : option nat :=
  match e with
  | UpdateSchedules _ => Some 0%nat
  | UpdateTasks TaskExec.INVALID _ => Some 1%nat
  | ScheduleExecute _ _ => Some 2%nat
  | UpdateTasks _ _ => Some 3%nat
  | SelectForUpdateFirst _ | Save _ => Some 4%nat
  | TaskExecute _ _ => Some 5%nat
  | Begin | Commit | Sleep _ => None
  end.

Definition phases (tr : list Event) : list nat := omap phase tr.

Definition is_save (e : Event) : bool :=
  match e with Save _ => true | _ => false end.

Definition is_task_execute (e : Event) : bool :=
  match e with TaskExecute _ _ => true | _ => false end.

Definition is_sleep (e : Event) : bool :=
  match e with Sleep _ => true | _ => false end.

(** A run of operations that are all calls of [schedule.execute]. *)
Definition schedule_events (sched : list Event) : Prop :=
  Forall (λ e, ∃ name r, e = ScheduleExecute name r) sched.

(** The operations of the tick after the schedules were checked: the
    wake-up, the claim, and the execution of the claimed row if any. *)
Inductive tick_tail (did_schedules : bool) : list Event → Exc + bool → Prop :=
| tail_idle count :
    tick_tail did_schedules
      [UpdateTasks TaskExec.QUEUED count; Begin; SelectForUpdateFirst None; Commit]
      (inr did_schedules)
| tail_executed count pk r :
    tick_tail did_schedules
      [UpdateTasks TaskExec.QUEUED count; Begin; SelectForUpdateFirst (Some pk);
       Save pk; Commit; TaskExecute pk r]
      (match r with inl e => inl e | inr did => inr (did_schedules || did) end).

(** A row that was not PROCESSING before an operation and is after it. *)
Definition becomes_processing (before after : gmap positive TaskExec.t) (k : positive)
    : Prop :=
  TaskExec.state <$> after !! k = Some TaskExec.PROCESSING
  ∧ TaskExec.state <$> before !! k ≠ Some TaskExec.PROCESSING.

(** The names of the schedules whose [execute] was called, in the order
    of the calls. *)
Definition executed_schedules (tr : list Event) : list string :=
  omap (λ e, match e with ScheduleExecute name _ => Some name | _ => None end) tr.

(** Whether a trace keeps its transactions and its calls apart: no
    transaction is opened inside another or closed twice, the selection
    for update and the save happen inside one, the calls into the
    schedules and the tasks and the sleep happen outside, and the trace
    ends outside.  [in_tx] tells whether a transaction is open. *)
Fixpoint bracketed (in_tx : bool) (tr : list Event) : bool :=
  match tr with
  | [] => negb in_tx
  | Begin :: tr' => negb in_tx && bracketed true tr'
  | Commit :: tr' => in_tx && bracketed false tr'
  | ScheduleExecute _ _ :: tr' | TaskExecute _ _ :: tr' | Sleep _ :: tr' =>
      negb in_tx && bracketed false tr'
  | SelectForUpdateFirst _ :: tr' | Save _ :: tr' => in_tx && bracketed true tr'
  | UpdateSchedules _ :: tr' | UpdateTasks _ _ :: tr' => bracketed in_tx tr'
  end.

(** Two versions of a row that differ at most in the fields the command
    writes. *)
Definition same_identity (r r' : TaskExec.t) : Prop :=
  TaskExec.task_name r = TaskExec.task_name r'
  ∧ TaskExec.due r = TaskExec.due r'
  ∧ TaskExec.created r = TaskExec.created r'.

(** Every row of [s] is still in [s'], with its name, [due] and
    [created]. *)
Definition keeps_rows (s s' : Store) : Prop :=
  ∀ k r, task_execs s !! k = Some r →
    ∃ r', task_execs s' !! k = Some r' ∧ same_identity r r'.

(** A row the command has no business with any more: INVALID, or
    PROCESSING, SUCCEEDED or FAILED under a name that is registered. *)
Definition settled (keys : list string) (r : TaskExec.t) : Prop :=
  TaskExec.state r = TaskExec.INVALID
  ∨ (TaskExec.task_name r ∈ keys
     ∧ (TaskExec.state r = TaskExec.PROCESSING
        ∨ TaskExec.state r = TaskExec.SUCCEEDED
        ∨ TaskExec.state r = TaskExec.FAILED)).

(** ** Sample data *)
Module Sample.

Local Open Scope string_scope.

Definition ok_callable : Store → Store * (string + string) := λ s, (s, inl "done").
Definition failing_callable : Store → Store * (string + string) :=
  λ s, (s, inr "ValueError: boom").

Definition send_email : Task := mkTask "send_email" 5 "default" ok_callable.
Definition cleanup : Task := mkTask "cleanup" 0 "default" ok_callable.
Definition crash : Task := mkTask "crash" 9 "default" failing_callable.
Definition daily_report : Schedule := mkSchedule "daily_report" "default".

Definition registry : Registries :=
  mkRegistries [send_email; cleanup; crash] [daily_report].

Definition row (name : string) (st : TaskExec.States) (due created : Z) : TaskExec.t :=
  TaskExec.Build name st due created None None None.

Definition continuous : Options := mkOptions [] [] false false 10.

(** A clock that advances by one unit at every reading, from 100. *)
Definition ticking : nat → Z := λ n, 100 + Z.of_nat n.

Definition store (tbl : list (positive * TaskExec.t))
    (stbl : list (positive * ScheduleExec.t)) : Store :=
  mkStore (list_to_map tbl) (list_to_map stbl) ticking 0.

(** No schedule fires. *)
Definition idle_schedule : Schedule → Z → Store → Store * (Exc + bool) :=
  λ _ _ s, (s, inr false).

(** A worker that only runs a queue no definition is in. *)
Definition other_queue : Options := mkOptions ["other"] [] false true 10.

(** Nothing to do; the tick takes 3 units and the sleep lasts what was
    asked. *)
Definition idle_store : Store :=
  mkStore ∅ ∅ (λ n, match n with O => 100 | S O => 103 | _ => 110 end) 0.

(** One queued execution of the task whose callable raises. *)
Definition crash_store : Store :=
  store [(7%positive, row "crash" TaskExec.QUEUED 0 0)] [].

Definition s0 : Store :=
  store [(1%positive, row "cleanup" TaskExec.QUEUED 5 1);
         (2%positive, row "send_email" TaskExec.QUEUED 50 2);
         (3%positive, row "removed" TaskExec.QUEUED 0 0);
         (4%positive, row "send_email" TaskExec.SLEEPING 20 3);
         (5%positive, row "send_email" TaskExec.SLEEPING 1000 4)]
        [(1%positive, ScheduleExec.Build "daily_report" ScheduleExec.ACTIVE None);
         (2%positive, ScheduleExec.Build "old_report" ScheduleExec.ACTIVE None)].

(** A schedule whose evaluation fails. *)
Definition raising_schedule : Schedule → Z → Store → Store * (Exc + bool) :=
  λ _ _ s, (s, inl (Error "store unavailable")).

(** An executor that writes the row it is given, and no other. *)
Definition mark_done : Task → positive * TaskExec.t → Store → Store * (Exc + bool) :=
  λ _ te s,
    (with_task_execs
       (<[te.1 := TaskExec.set_state TaskExec.SUCCEEDED te.2]> (task_execs s)) s,
     inr true).

(** No definition at all. *)
Definition nothing_registered : Registries := mkRegistries [] [].

End Sample.

(** ** Bulk updates *)

Section Update.
Context {A : Type} (P : A → bool) (f : A → A).

Lemma update_lookup (tbl : gmap positive A) k :
  (update P f tbl).2 !! k = (λ r, if P r then f r else r) <$> tbl !! k.
Proof. unfold update. simpl. apply lookup_fmap. Qed.

Lemma update_lookup_match (tbl : gmap positive A) k r :
  tbl !! k = Some r → P r = true → (update P f tbl).2 !! k = Some (f r).
Proof. intros Hk HP. rewrite update_lookup, Hk. simpl. by rewrite HP. Qed.

Lemma update_lookup_other (tbl : gmap positive A) k r :
  tbl !! k = Some r → P r = false → (update P f tbl).2 !! k = Some r.
Proof. intros Hk HP. rewrite update_lookup, Hk. simpl. by rewrite HP. Qed.

Lemma update_lookup_None (tbl : gmap positive A) k :
  tbl !! k = None → (update P f tbl).2 !! k = None.
Proof. intros Hk. by rewrite update_lookup, Hk. Qed.

Lemma update_count_0 (tbl : gmap positive A) :
  (∀ k r, tbl !! k = Some r → P r = false) → (update P f tbl).1 = 0%nat.
Proof.
  intros Hno. unfold update. simpl.
  replace (filter (λ kv : positive * A, P kv.2) tbl) with (∅ : gmap positive A).
  - apply map_size_empty.
  - symmetry. apply map_empty_filter. intros k r Hk HP. simpl in HP.
    rewrite (Hno k r Hk) in HP. done.
Qed.

(** An update whose images no longer match is idempotent. *)
Lemma update_twice (tbl : gmap positive A) :
  (∀ r, P r = true → P (f r) = false) →
  update P f (update P f tbl).2 = (0%nat, (update P f tbl).2).
Proof.
  intros Hf.
  assert (Hno : ∀ k r, (update P f tbl).2 !! k = Some r → P r = false).
  { intros k r. rewrite update_lookup. destruct (tbl !! k) as [r0|] eqn:Hk; [|done].
    simpl. intros [= <-]. destruct (P r0) eqn:HP; auto. }
  rewrite (surjective_pairing (update P f (update P f tbl).2)). f_equal.
  - by apply update_count_0.
  - apply map_eq. intros k. rewrite update_lookup.
    destruct ((update P f tbl).2 !! k) as [r|] eqn:Hk; [|done].
    simpl. by rewrite (Hno k r Hk).
Qed.
End Update.

Lemma orphaned_task_fixed keys r :
  orphaned_task keys (TaskExec.set_state TaskExec.INVALID r) = false.
Proof. reflexivity. Qed.

Lemma orphaned_schedule_fixed keys r :
  orphaned_schedule keys (ScheduleExec.set_state ScheduleExec.INVALID r) = false.
Proof. reflexivity. Qed.

Lemma sleeping_due_fixed t r :
  sleeping_due t (TaskExec.set_state TaskExec.QUEUED r) = false.
Proof. reflexivity. Qed.

Lemma orphaned_task_true keys r :
  orphaned_task keys r = true ↔
  TaskExec.state r ≠ TaskExec.INVALID ∧ TaskExec.task_name r ∉ keys.
Proof.
  unfold orphaned_task. rewrite andb_true_iff, !negb_true_iff, !bool_decide_eq_false.
  done.
Qed.

Lemma orphaned_schedule_true keys r :
  orphaned_schedule keys r = true ↔
  ScheduleExec.state r ≠ ScheduleExec.INVALID ∧ ScheduleExec.name r ∉ keys.
Proof.
  unfold orphaned_schedule. rewrite andb_true_iff, !negb_true_iff, !bool_decide_eq_false.
  done.
Qed.

Lemma sleeping_due_true t r :
  sleeping_due t r = true ↔ TaskExec.state r = TaskExec.SLEEPING ∧ TaskExec.due r ≤ t.
Proof. unfold sleeping_due. by rewrite andb_true_iff, !bool_decide_eq_true. Qed.

(** ** Running the monad *)

Ltac run :=
  unfold mbind, M_bind, mret, M_ret, bind, ret, raise, emit, get, modify, now, call;
  simpl.

(** The laws of the monad, at every store. *)
Lemma bind_assoc {A B C} (m : M A) (f : A → M B) (g : B → M C) s :
  ((m ≫= f) ≫= g) s = (m ≫= (λ a, f a ≫= g)) s.
Proof.
  unfold mbind, M_bind, bind. destruct (value (m s)) as [e|a]; simpl; [done|].
  destruct (value (f a (final (m s)))); simpl; [done|]. by rewrite app_assoc.
Qed.

Lemma bind_ext {A B} (m : M A) (f g : A → M B) s :
  (∀ a s', f a s' = g a s') → (m ≫= f) s = (m ≫= g) s.
Proof.
  intros Hfg. unfold mbind, M_bind, bind.
  destruct (value (m s)); [done|]. by rewrite Hfg.
Qed.

Lemma bind_ret_l {A B} (a : A) (f : A → M B) s : (mret a ≫= f) s = f a s.
Proof. unfold mbind, M_bind, bind, mret, M_ret, ret. simpl. by destruct (f a s). Qed.

Lemma update_tasks_run P st s :
  update_tasks P st s =
  let r := update P (TaskExec.set_state st) (task_execs s) in
  mkOutcome [UpdateTasks st r.1] (with_task_execs r.2 s) (inr r.1).
Proof. reflexivity. Qed.

Lemma update_schedules_run P st s :
  update_schedules P st s =
  let r := update P (ScheduleExec.set_state st) (schedule_execs s) in
  mkOutcome [UpdateSchedules r.1] (with_schedule_execs r.2 s) (inr r.1).
Proof. reflexivity. Qed.

(** C8: the bulk orphan invalidations and the bulk wake-up are idempotent:
    run a second time on the store the first run left, with the same
    registry and the same current time, each of them matches zero rows
    and leaves the store as it was. *)
Theorem bulk_updates_idempotent (registry : Registries) (t : Z) (s : Store) :
  let invalidate_schedules :=
    update_schedules (orphaned_schedule (schedule_keys (schedules_registry registry)))
      ScheduleExec.INVALID in
  let invalidate_tasks :=
    update_tasks (orphaned_task (task_keys (tasks_registry registry))) TaskExec.INVALID in
  let wake := update_tasks (sleeping_due t) TaskExec.QUEUED in
  (value (invalidate_schedules (final (invalidate_schedules s))) = inr 0%nat
   ∧ final (invalidate_schedules (final (invalidate_schedules s)))
     = final (invalidate_schedules s))
  ∧ (value (invalidate_tasks (final (invalidate_tasks s))) = inr 0%nat
     ∧ final (invalidate_tasks (final (invalidate_tasks s))) = final (invalidate_tasks s))
  ∧ (value (wake (final (wake s))) = inr 0%nat
     ∧ final (wake (final (wake s))) = final (wake s)).
Proof.
  intros inv_s inv_t wake. subst inv_s inv_t wake.
  rewrite !update_tasks_run, !update_schedules_run. cbv zeta.
  unfold with_task_execs, with_schedule_execs. cbn [final value task_execs schedule_execs].
  rewrite !update_twice by auto using orphaned_task_fixed,
    orphaned_schedule_fixed, sleeping_due_fixed.
  done.
Qed.

Lemma disable_orphaned_schedules_run registry s :
  disable_orphaned_schedules registry s =
  let r := update (orphaned_schedule (schedule_keys (schedules_registry registry)))
             (ScheduleExec.set_state ScheduleExec.INVALID) (schedule_execs s) in
  mkOutcome [Begin; UpdateSchedules r.1; Commit] (with_schedule_execs r.2 s) (inr tt).
Proof. reflexivity. Qed.

Lemma disable_orphaned_tasks_run registry s :
  disable_orphaned_tasks registry s =
  let r := update (orphaned_task (task_keys (tasks_registry registry)))
             (TaskExec.set_state TaskExec.INVALID) (task_execs s) in
  mkOutcome [Begin; UpdateTasks TaskExec.INVALID r.1; Commit]
    (with_task_execs r.2 s) (inr tt).
Proof. reflexivity. Qed.

Lemma wake_up_tasks_run s :
  wake_up_tasks s =
  let r := update (sleeping_due (clock s (reads s)))
             (TaskExec.set_state TaskExec.QUEUED) (task_execs s) in
  mkOutcome [UpdateTasks TaskExec.QUEUED r.1]
    (with_task_execs r.2 (with_reads (S (reads s)) s)) (inr tt).
Proof. reflexivity. Qed.

(** C5: the wake-up step is one bulk update; it moves to QUEUED exactly
    the rows that are SLEEPING with [due] at most the current time, and
    leaves every other row, and the schedules, as they were. *)
Theorem wake_up_exactly_due_sleepers (s : Store) :
  let t := clock s (reads s) in
  let o := wake_up_tasks s in
  value o = inr tt
  ∧ (∃ count, emitted o = [UpdateTasks TaskExec.QUEUED count])
  ∧ (∀ k r, task_execs s !! k = Some r →
       TaskExec.state r = TaskExec.SLEEPING → TaskExec.due r ≤ t →
       task_execs (final o) !! k = Some (TaskExec.set_state TaskExec.QUEUED r))
  ∧ (∀ k r, task_execs s !! k = Some r →
       TaskExec.state r ≠ TaskExec.SLEEPING ∨ t < TaskExec.due r →
       task_execs (final o) !! k = Some r)
  ∧ (∀ k, task_execs s !! k = None → task_execs (final o) !! k = None)
  ∧ schedule_execs (final o) = schedule_execs s.
Proof.
  intros t o. subst o. rewrite wake_up_tasks_run. cbv zeta.
  cbn [value emitted final task_execs schedule_execs with_task_execs with_reads].
  split; [done|]. split; [by eexists|]. repeat split.
  - intros k r Hk Hst Hdue. apply update_lookup_match; [done|].
    by apply sleeping_due_true.
  - intros k r Hk Hno. apply update_lookup_other; [done|].
    destruct (sleeping_due (clock s (reads s)) r) eqn:E; [|done].
    apply sleeping_due_true in E. subst t. destruct Hno; [tauto | lia].
  - intros k Hk. by apply update_lookup_None.
Qed.

Lemma set_state_same_task r :
  TaskExec.state r = TaskExec.INVALID → TaskExec.set_state TaskExec.INVALID r = r.
Proof. destruct r; simpl; by intros ->. Qed.

Lemma set_state_same_schedule r :
  ScheduleExec.state r = ScheduleExec.INVALID →
  ScheduleExec.set_state ScheduleExec.INVALID r = r.
Proof. destruct r; simpl; by intros ->. Qed.

(** ** The claim *)

Lemma getitem_cons task reg key :
  getitem (task :: reg) key =
  if decide (task_name task = key) then Some task else getitem reg key.
Proof.
  unfold getitem. simpl. case_decide; [done|].
  by destruct (list_find _ reg) as [[i t]|].
Qed.

Lemma getitem_is_Some reg key :
  key ∈ task_keys reg → is_Some (getitem reg key).
Proof.
  unfold task_keys. induction reg as [|t reg IH].
  - by intros ?%elem_of_nil.
  - rewrite getitem_cons, fmap_cons. case_decide; [by eexists|].
    intros [->|Hin]%elem_of_cons; [done | auto].
Qed.

Lemma order_by_priority_clause_spec reg r :
  order_by_priority_clause reg r = - definition_priority reg r.
Proof.
  unfold definition_priority. induction reg as [|task reg IH]; [done|].
  simpl. rewrite getitem_cons. case_bool_decide; case_decide; try congruence.
Qed.

Lemma row_le_spec reg x y :
  row_le reg x y ↔ claimed_no_later reg x.2 y.2.
Proof.
  unfold row_le, order_key, key_le, claimed_no_later.
  rewrite !order_by_priority_clause_spec. lia.
Qed.

Lemma queued_for_spec registry options r :
  queued_for (task_name <$> tasks_to_check registry options) r = true ↔
  eligible registry options r.
Proof.
  unfold queued_for, eligible, tasks_to_check, for_queue, queues, excluded_queues.
  rewrite andb_true_iff, !bool_decide_eq_true, list_elem_of_fmap.
  setoid_rewrite list_elem_of_filter. setoid_rewrite Is_true_true.
  split.
  - intros [Hst (task & Hname & Hpass & Hin)]. split; [done|].
    exists task. by rewrite Hname.
  - intros [Hst (task & Hin & Hname & Hpass)]. split; [done|].
    exists task. by rewrite Hname.
Qed.

#[global] Instance row_le_trans reg : Transitive (row_le reg).
Proof. intros x y z. unfold row_le, key_le, order_key. lia. Qed.

#[global] Instance row_le_total reg : Total (row_le reg).
Proof. intros x y. unfold row_le, key_le, order_key. lia. Qed.

Section Sorted_head.
Context {A : Type} (R : relation A) `{!∀ x y, Decision (R x y)}.
Context `{!Transitive R, !Total R}.

Lemma first_merge_sort_Some l x :
  first (merge_sort R l) = Some x → x ∈ l ∧ ∀ y, y ∈ l → R x y.
Proof.
  unfold first. intros Hhd.
  pose proof (StronglySorted_merge_sort R l) as Hs.
  pose proof (merge_sort_Permutation R l) as Hp.
  destruct (merge_sort R l) as [|x' l'] eqn:E; [done|].
  simpl in Hhd. injection Hhd as ->.
  split.
  - rewrite <- Hp. left.
  - intros y Hy. rewrite <- Hp in Hy. apply elem_of_cons in Hy as [Heq|Hy].
    + rewrite Heq. by destruct (total R x x).
    + apply StronglySorted_inv in Hs as [_ Hall].
      rewrite Forall_forall in Hall. by apply Hall.
Qed.

Lemma first_merge_sort_None l :
  first (merge_sort R l) = None → l = [].
Proof.
  unfold first. intros Hhd.
  pose proof (merge_sort_Permutation R l) as Hp.
  destruct (merge_sort R l); [|done].
  symmetry in Hp. by apply Permutation_nil_r in Hp.
Qed.
End Sorted_head.

Lemma first_tasks_execs_Some reg names tbl pk row :
  first (tasks_execs reg names tbl) = Some (pk, row) →
  tbl !! pk = Some row ∧ queued_for names row = true
  ∧ ∀ pk2 r2, tbl !! pk2 = Some r2 → queued_for names r2 = true →
      row_le reg (pk, row) (pk2, r2).
Proof.
  unfold tasks_execs. intros Hhd.
  apply (first_merge_sort_Some (row_le reg)) in Hhd as [Hin Hmin].
  apply list_elem_of_filter in Hin as [Hq Hin]. simpl in Hq.
  apply elem_of_map_to_list in Hin. apply Is_true_true in Hq.
  repeat split; [done..|].
  intros pk2 r2 Hk2 Hq2. apply Hmin. apply list_elem_of_filter. split.
  - simpl. by apply Is_true_true.
  - by apply elem_of_map_to_list.
Qed.

Lemma first_tasks_execs_None reg names tbl :
  first (tasks_execs reg names tbl) = None →
  ∀ pk r, tbl !! pk = Some r → queued_for names r = false.
Proof.
  unfold tasks_execs. intros Hnil pk r Hk.
  apply (first_merge_sort_None (row_le reg)) in Hnil.
  destruct (queued_for names r) eqn:Hq; [|done].
  assert ((pk, r) ∈ filter (λ kv : positive * TaskExec.t, queued_for names kv.2)
            (map_to_list tbl)) as Hin.
  { apply list_elem_of_filter. split; [simpl; by apply Is_true_true|].
    by apply elem_of_map_to_list. }
  rewrite Hnil in Hin. by apply elem_of_nil in Hin.
Qed.

Lemma claim_run registry options s :
  claim registry options s =
  match first (tasks_execs (tasks_registry registry)
                 (task_name <$> tasks_to_check registry options) (task_execs s)) with
  | Some (pk, row) =>
      let row' := TaskExec.set_state TaskExec.PROCESSING
                    (TaskExec.set_started (clock s (reads s)) row) in
      mkOutcome [Begin; SelectForUpdateFirst (Some pk); Save pk; Commit]
        (with_task_execs (<[pk := row']> (task_execs s)) (with_reads (S (reads s)) s))
        (inr (Some (pk, row')))
  | None => mkOutcome [Begin; SelectForUpdateFirst None; Commit] s (inr None)
  end.
Proof.
  unfold claim, atomic, select_for_update_first. run.
  destruct (first _) as [[pk row]|]; reflexivity.
Qed.

(** C1: the claimer considers exactly the QUEUED rows whose task name
    belongs to a registered definition that passes the queue filter; the
    row it takes comes no later than any other such row in the order
    (descending definition priority with unknown priorities as 0, then
    ascending due, then ascending created); inside one transaction it
    selects that row for update, sets its [started] to the current time and
    its state to PROCESSING and saves it; with no eligible row it changes
    nothing. *)
Theorem claim_takes_top_eligible_row (registry : Registries) (options : Options)
    (s : Store) :
  let o := claim registry options s in
  match value o with
  | inl _ => False
  | inr None =>
      (∀ pk r, task_execs s !! pk = Some r → ¬ eligible registry options r)
      ∧ final o = s
      ∧ emitted o = [Begin; SelectForUpdateFirst None; Commit]
  | inr (Some (pk, claimed)) =>
      ∃ row, task_execs s !! pk = Some row
        ∧ eligible registry options row
        ∧ (∀ pk2 r2, task_execs s !! pk2 = Some r2 → eligible registry options r2 →
             claimed_no_later (tasks_registry registry) row r2)
        ∧ claimed = TaskExec.set_state TaskExec.PROCESSING
                      (TaskExec.set_started (clock s (reads s)) row)
        ∧ task_execs (final o) = <[pk := claimed]> (task_execs s)
        ∧ schedule_execs (final o) = schedule_execs s
        ∧ emitted o = [Begin; SelectForUpdateFirst (Some pk); Save pk; Commit]
  end.
Proof.
  cbv zeta. rewrite claim_run.
  destruct (first _) as [[pk row]|] eqn:Hfirst; cbn [value final emitted].
  - apply first_tasks_execs_Some in Hfirst as (Hk & Hq & Hmin).
    exists row. split; [done|]. split; [by apply queued_for_spec|].
    split; [|done].
    intros pk2 r2 Hk2 Hel.
    apply (row_le_spec _ (pk, row) (pk2, r2)), Hmin; [done|].
    by apply queued_for_spec.
  - split; [|done]. intros pk r Hk Hel%queued_for_spec.
    by rewrite (first_tasks_execs_None _ _ _ Hfirst pk r Hk) in Hel.
Qed.

Lemma claim_takes_top_eligible_row_witness :
  ∃ row, task_execs Sample.s0 !! 2%positive = Some row
    ∧ eligible Sample.registry Sample.continuous row
    ∧ (∀ pk2 r2, task_execs Sample.s0 !! pk2 = Some r2 →
         eligible Sample.registry Sample.continuous r2 →
         claimed_no_later (tasks_registry Sample.registry) row r2)
    ∧ TaskExec.Build "send_email" TaskExec.PROCESSING 50 2 (Some 100) None None
        = TaskExec.set_state TaskExec.PROCESSING (TaskExec.set_started 100 row).
Proof.
  pose proof (claim_takes_top_eligible_row Sample.registry Sample.continuous Sample.s0)
    as H.
  cbv zeta in H.
  assert (value (claim Sample.registry Sample.continuous Sample.s0)
          = inr (Some (2%positive,
                       TaskExec.Build "send_email" TaskExec.PROCESSING 50 2 (Some 100)
                         None None))) as E
    by (vm_compute; reflexivity).
  rewrite E in H. destruct H as (row & H1 & H2 & H3 & H4 & _).
  exists row. split; [exact H1|]. split; [exact H2|]. split; [exact H3 | exact H4].
Defined.

(** ** The orphan reconciler *)

(** C3: after the two orphan updates that open a tick, every TaskExec row
    whose task name is not a key of the task registry is INVALID, every
    ScheduleExec row whose name is not a key of the schedule registry is
    INVALID, every other row is as it was, no row appears or disappears;
    and the claimer only ever takes a QUEUED row whose task name is a key
    of the registry, so an orphaned row is never claimed. *)
Theorem orphans_invalidated_never_claimed (registry : Registries) (options : Options)
    (s : Store) :
  let o := (disable_orphaned_schedules registry ;; disable_orphaned_tasks registry) s in
  let tkeys := task_keys (tasks_registry registry) in
  let skeys := schedule_keys (schedules_registry registry) in
  value o = inr tt
  ∧ (∀ k r, task_execs s !! k = Some r → TaskExec.task_name r ∉ tkeys →
       task_execs (final o) !! k = Some (TaskExec.set_state TaskExec.INVALID r))
  ∧ (∀ k r, schedule_execs s !! k = Some r → ScheduleExec.name r ∉ skeys →
       schedule_execs (final o) !! k
       = Some (ScheduleExec.set_state ScheduleExec.INVALID r))
  ∧ (∀ k r, task_execs s !! k = Some r → TaskExec.task_name r ∈ tkeys →
       task_execs (final o) !! k = Some r)
  ∧ (∀ k r, schedule_execs s !! k = Some r → ScheduleExec.name r ∈ skeys →
       schedule_execs (final o) !! k = Some r)
  ∧ (∀ k, task_execs s !! k = None → task_execs (final o) !! k = None)
  ∧ (∀ k, schedule_execs s !! k = None → schedule_execs (final o) !! k = None)
  ∧ (∀ s' pk claimed, value (claim registry options s') = inr (Some (pk, claimed)) →
       ∃ row, task_execs s' !! pk = Some row
         ∧ TaskExec.state row = TaskExec.QUEUED
         ∧ TaskExec.task_name row ∈ tkeys).
Proof.
  intros o tkeys skeys. subst o.
  unfold mbind, M_bind, bind.
  rewrite disable_orphaned_schedules_run. cbv zeta. cbn [value final emitted].
  rewrite disable_orphaned_tasks_run. cbv zeta.
  cbn [value final emitted task_execs schedule_execs with_task_execs with_schedule_execs].
  split; [done|]. repeat split.
  - intros k r Hk Hname.
    destruct (orphaned_task tkeys r) eqn:E.
    + by apply update_lookup_match.
    + rewrite (update_lookup_other _ _ _ _ _ Hk E). f_equal. symmetry.
      apply set_state_same_task.
      destruct (decide (TaskExec.state r = TaskExec.INVALID)) as [|Hne]; [done|].
      assert (orphaned_task tkeys r = true) by by apply orphaned_task_true.
      congruence.
  - intros k r Hk Hname.
    destruct (orphaned_schedule skeys r) eqn:E.
    + by apply update_lookup_match.
    + rewrite (update_lookup_other _ _ _ _ _ Hk E). f_equal. symmetry.
      apply set_state_same_schedule.
      destruct (decide (ScheduleExec.state r = ScheduleExec.INVALID)) as [|Hne]; [done|].
      assert (orphaned_schedule skeys r = true) by by apply orphaned_schedule_true.
      congruence.
  - intros k r Hk Hname. apply update_lookup_other; [done|].
    destruct (orphaned_task tkeys r) eqn:E; [|done].
    apply orphaned_task_true in E. tauto.
  - intros k r Hk Hname. apply update_lookup_other; [done|].
    destruct (orphaned_schedule skeys r) eqn:E; [|done].
    apply orphaned_schedule_true in E. tauto.
  - intros k Hk. by apply update_lookup_None.
  - intros k Hk. by apply update_lookup_None.
  - intros s' pk claimed Hclaim. rewrite claim_run in Hclaim.
    destruct (first _) as [[pk' row]|] eqn:Hfirst; [|done].
    cbn [value] in Hclaim. injection Hclaim as -> _.
    apply first_tasks_execs_Some in Hfirst as (Hk & Hq & _).
    exists row. split; [done|].
    apply queued_for_spec in Hq as [Hst (task & Hin & Hname & _)].
    split; [done|]. subst tkeys. unfold task_keys. rewrite <- Hname.
    by apply list_elem_of_fmap_2.
Qed.

Lemma orphans_invalidated_never_claimed_witness :
  task_execs (final ((disable_orphaned_schedules Sample.registry ;;
                      disable_orphaned_tasks Sample.registry) Sample.s0)) !! 3%positive
  = Some (Sample.row "removed" TaskExec.INVALID 0 0).
Proof.
  apply (proj1 (proj2 (orphans_invalidated_never_claimed
                         Sample.registry Sample.continuous Sample.s0))
           3%positive (Sample.row "removed" TaskExec.QUEUED 0 0)).
  - reflexivity.
  - apply (bool_decide_unpack _). vm_compute. exact I.
Defined.

Lemma wake_up_exactly_due_sleepers_witness :
  task_execs (final (wake_up_tasks Sample.s0)) !! 4%positive
  = Some (Sample.row "send_email" TaskExec.QUEUED 20 3)
  ∧ task_execs (final (wake_up_tasks Sample.s0)) !! 5%positive
    = Some (Sample.row "send_email" TaskExec.SLEEPING 1000 4).
Proof.
  pose proof (wake_up_exactly_due_sleepers Sample.s0) as (_ & _ & Hwake & Hkeep & _).
  split.
  - apply (Hwake 4%positive (Sample.row "send_email" TaskExec.SLEEPING 20 3));
      [reflexivity | reflexivity | vm_compute; discriminate].
  - apply (Hkeep 5%positive (Sample.row "send_email" TaskExec.SLEEPING 1000 4));
      [reflexivity | right; vm_compute; reflexivity].
Defined.

Lemma claim_registered registry options s pk claimed :
  value (claim registry options s) = inr (Some (pk, claimed)) →
  TaskExec.task_name claimed ∈ task_keys (tasks_registry registry).
Proof.
  rewrite claim_run.
  destruct (first _) as [[pk' row]|] eqn:Hfirst; [|done].
  cbv zeta. cbn [value]. intros [= _ <-].
  apply first_tasks_execs_Some in Hfirst as (_ & Hq & _).
  apply queued_for_spec in Hq as [_ (task & Hin & Hname & _)].
  simpl. unfold task_keys. rewrite <- Hname. by apply list_elem_of_fmap_2.
Qed.

(** ** The tick, phase by phase *)

Section Tick.
Variable registry : Registries.
Variable options : Options.
Variable schedule_execute : Schedule → Z → Store → Store * (Exc + bool).
Variable task_execute : Task → positive * TaskExec.t → Store → Store * (Exc + bool).

Lemma tick_split s :
  tick registry options schedule_execute task_execute s
  = (p ← tick_until_claim registry options schedule_execute;
     execute_claimed registry task_execute p.2 p.1) s.
Proof.
  unfold tick, tick_until_claim, schedules_to_check. symmetry.
  do 5 (rewrite bind_assoc; apply bind_ext; intros ? ?).
  by rewrite bind_ret_l.
Qed.

Lemma check_schedules_events l acc s :
  let o := check_schedules options schedule_execute l acc s in
  schedule_events (emitted o)
  ∧ (length (emitted o) ≤ length l)%nat
  ∧ ∀ b, value o = inr b →
      b = acc || existsb reported (emitted o)
      ∧ length (emitted o) = length l.
Proof.
  unfold schedule_events.
  revert acc s. induction l as [|schedule l IH]; intros acc s; simpl.
  - split; [constructor|]. split; [done|]. intros b [= <-]. by rewrite orb_false_r.
  - unfold mbind, M_bind, bind, call. simpl.
    destruct (schedule_execute _ _ s).2 as [e|did] eqn:E; simpl.
    + split; [constructor; eauto|]. split; [lia|]. intros b [=].
    + specialize (IH (acc || did) (schedule_execute schedule (tick_duration options) s).1).
      cbv zeta in IH. destruct IH as (Hall & Hlen & Hval).
      destruct (value (check_schedules _ _ l (acc || did) _)) as [e|b'] eqn:E2; simpl.
      * split; [constructor; eauto|]. split; [lia|]. intros b [=].
      * split; [constructor; eauto|]. split; [lia|]. intros b [= <-].
        destruct (Hval b' eq_refl) as [-> Hl]. split; [|lia].
        by rewrite orb_assoc.
Qed.
End Tick.

Ltac shape o :=
  simpl; rewrite ?app_nil_r, <- ?app_assoc; simpl;
  do 2 eexists; exists (emitted o); eexists;
  split; [reflexivity|]; split; [done|].

Section Tick_shape.
Variable registry : Registries.
Variable options : Options.
Variable schedule_execute : Schedule → Z → Store → Store * (Exc + bool).
Variable task_execute : Task → positive * TaskExec.t → Store → Store * (Exc + bool).

#[local] Abbreviation tick' := (tick registry options schedule_execute task_execute).

Lemma tick_shape s :
  ∃ n1 n2 sched tail,
    emitted (tick' s)
    = [Begin; UpdateSchedules n1; Commit; Begin; UpdateTasks TaskExec.INVALID n2; Commit]
      ++ sched ++ tail
    ∧ schedule_events sched
    ∧ ((tail = [] ∧ ∃ e, value (tick' s) = inl e)
       ∨ (length sched = length (schedules_to_check registry options)
          ∧ tick_tail (existsb reported sched) tail (value (tick' s)))).
Proof.
  unfold tick. unfold mbind, M_bind, bind.
  rewrite disable_orphaned_schedules_run. cbv zeta. cbn [value final emitted].
  set (s1 := with_schedule_execs _ s).
  rewrite disable_orphaned_tasks_run. cbv zeta. cbn [value final emitted].
  set (s2 := with_task_execs _ s1).
  pose proof (check_schedules_events options schedule_execute
                (schedules_to_check registry options) false s2) as Hcs.
  cbv zeta in Hcs. destruct Hcs as (Hall & _ & Hval).
  unfold schedules_to_check in *.
  set (o3 := check_schedules options schedule_execute _ false s2) in *.
  destruct (value o3) as [e|did] eqn:E3; cbn [value final emitted].
  { do 2 eexists. exists (emitted o3), []. rewrite app_nil_r.
    split; [reflexivity|]. split; [done|]. left. eauto. }
  destruct (Hval did eq_refl) as [Hdid Hlen]. simpl in Hdid.
  rewrite wake_up_tasks_run. cbv zeta. cbn [value final emitted].
  set (s4 := with_task_execs _ _).
  pose proof (claim_registered registry options s4) as Hreg.
  rewrite claim_run in Hreg |- *.
  destruct (first _) as [[pk row]|]; cbv zeta in Hreg |- *;
    cbn [value final emitted] in Hreg |- *.
  - specialize (Hreg _ _ eq_refl). apply getitem_is_Some in Hreg as [task Htask].
    unfold execute_claimed. cbn [fst snd]. rewrite Htask.
    set (te := (pk, _)). set (s5 := with_task_execs _ _).
    unfold mbind, M_bind, bind, call, mret, M_ret, ret.
    cbn [value final emitted].
    destruct (task_execute task te s5).2 as [e|d] eqn:E6; cbn [value final emitted].
    + shape o3. right. split; [done|].
      apply (tail_executed _ _ pk (inl e)).
    + shape o3. right. split; [done|]. rewrite Hdid.
      apply (tail_executed _ _ pk (inr d)).
  - unfold execute_claimed, mret, M_ret, ret. cbn [value final emitted].
    shape o3. right. split; [done|]. rewrite Hdid. constructor.
Qed.
End Tick_shape.

(** ** Consequences for the trace of a tick *)

Lemma sched_phases sched :
  schedule_events sched → phases sched = replicate (length sched) 2%nat.
Proof.
  unfold phases. induction 1 as [|e l (name & did & ->) _ IH]; [done|].
  simpl. f_equal. exact IH.
Qed.

Lemma sched_no_save sched : schedule_events sched → List.filter is_save sched = [].
Proof. induction 1 as [|e l (name & did & ->) _ IH]; [done|]. simpl. exact IH. Qed.

Lemma sched_no_task_execute sched :
  schedule_events sched → List.filter is_task_execute sched = [].
Proof. induction 1 as [|e l (name & did & ->) _ IH]; [done|]. simpl. exact IH. Qed.

Lemma sched_elem sched e :
  schedule_events sched → e ∈ sched → ∃ name did, e = ScheduleExecute name did.
Proof. unfold schedule_events. rewrite Forall_forall. auto. Qed.

Lemma replicate_sorted (k : nat) (t : list nat) :
  StronglySorted le t → Forall (le 2) t →
  StronglySorted le (0 :: 1 :: replicate k 2 ++ t)%nat.
Proof.
  intros Ht Hall.
  assert (StronglySorted le (replicate k 2%nat ++ t)
          ∧ Forall (le 2) (replicate k 2%nat ++ t)) as [Hs Hf].
  { induction k as [|k [IHs IHf]]; simpl; [done|].
    split; [by constructor | by constructor]. }
  constructor; [constructor; [done|]|].
  - eapply Forall_impl; [exact Hf|]. simpl. lia.
  - constructor; [lia|]. eapply Forall_impl; [exact Hf|]. simpl. lia.
Qed.

Lemma update_never_processing P st (tbl : gmap positive TaskExec.t) k :
  st ≠ TaskExec.PROCESSING →
  ¬ becomes_processing tbl (update P (TaskExec.set_state st) tbl).2 k.
Proof.
  intros Hst [Hafter Hbefore]. rewrite update_lookup in Hafter.
  destruct (tbl !! k) as [r|]; [|done]. simpl in *.
  destruct (P r); simpl in *; congruence.
Qed.

Lemma claim_one_processing registry options s k :
  becomes_processing (task_execs s) (task_execs (final (claim registry options s))) k →
  ∃ claimed, value (claim registry options s) = inr (Some (k, claimed)).
Proof.
  rewrite claim_run.
  destruct (first _) as [[pk row]|]; cbv zeta; cbn [value final task_execs with_task_execs].
  - intros [Hafter Hbefore]. destruct (decide (pk = k)) as [->|Hne]; [by eexists|].
    rewrite lookup_insert_ne in Hafter by done. cbn [task_execs with_reads] in Hafter.
    congruence.
  - intros [Hafter Hbefore]. congruence.
Qed.

(** C2: in every tick the claimer saves at most one row, the executor is
    called at most once and only for the row that was saved; the bulk
    updates of the tick never set PROCESSING, and the claim moves at most
    one row to PROCESSING. *)
Theorem at_most_one_claim_and_execution (registry : Registries) (options : Options)
    (schedule_execute : Schedule → Z → Store → Store * (Exc + bool))
    (task_execute : Task → positive * TaskExec.t → Store → Store * (Exc + bool))
    (s : Store) :
  let tr := emitted (tick registry options schedule_execute task_execute s) in
  (length (List.filter is_save tr) ≤ 1)%nat
  ∧ (length (List.filter is_task_execute tr) ≤ 1)%nat
  ∧ (∀ pk r, TaskExecute pk r ∈ tr → Save pk ∈ tr)
  ∧ (∀ st count, UpdateTasks st count ∈ tr → st ≠ TaskExec.PROCESSING)
  ∧ (∀ P st tbl k, st ≠ TaskExec.PROCESSING →
       ¬ becomes_processing tbl (update P (TaskExec.set_state st) tbl).2 k)
  ∧ (∀ s' k1 k2,
       becomes_processing (task_execs s')
         (task_execs (final (claim registry options s'))) k1 →
       becomes_processing (task_execs s')
         (task_execs (final (claim registry options s'))) k2 →
       k1 = k2).
Proof.
  intros tr. subst tr.
  destruct (tick_shape registry options schedule_execute task_execute s)
    as (n1 & n2 & sched & tail & -> & Hsched & Htail).
  assert (Hcases : tail = [] ∨ ∃ v, tick_tail (existsb reported sched) tail v).
  { destruct Htail as [[-> _]|[_ Ht]]; eauto. }
  clear Htail.
  rewrite !List.filter_app, (sched_no_save _ Hsched), (sched_no_task_execute _ Hsched).
  repeat split.
  - destruct Hcases as [->|[v Ht]]; [simpl; lia|]. inversion Ht; simpl; lia.
  - destruct Hcases as [->|[v Ht]]; [simpl; lia|]. inversion Ht; simpl; lia.
  - intros pk did Hin.
    rewrite !elem_of_app in Hin. rewrite !elem_of_app.
    destruct Hin as [Hin|[Hin|Hin]].
    + repeat (apply elem_of_cons in Hin as [Hin|Hin]; [discriminate|]).
      by apply elem_of_nil in Hin.
    + apply (sched_elem _ _ Hsched) in Hin as (? & ? & [=]).
    + right. right.
      destruct Hcases as [->|[v Ht]]; [by apply elem_of_nil in Hin|].
      inversion Ht; subst;
        repeat (apply elem_of_cons in Hin as [Hin|Hin]; [try discriminate|]);
        try (by apply elem_of_nil in Hin).
      injection Hin as -> _. do 3 right. left.
  - intros st count Hin. rewrite !elem_of_app in Hin.
    destruct Hin as [Hin|[Hin|Hin]].
    + repeat (apply elem_of_cons in Hin as [Hin|Hin];
              [try discriminate; injection Hin as -> _; done|]).
      by apply elem_of_nil in Hin.
    + apply (sched_elem _ _ Hsched) in Hin as (? & ? & [=]).
    + destruct Hcases as [->|[v Ht]]; [by apply elem_of_nil in Hin|].
      inversion Ht; subst;
        repeat (apply elem_of_cons in Hin as [Hin|Hin];
                [try discriminate; injection Hin as -> _; done|]);
        by apply elem_of_nil in Hin.
  - intros P st tbl k. apply update_never_processing.
  - intros s' k1 k2 [c1 H1]%claim_one_processing [c2 H2]%claim_one_processing.
    congruence.
Qed.

Lemma at_most_one_claim_and_execution_witness :
  Save 4%positive
  ∈ emitted (tick Sample.registry Sample.continuous Sample.idle_schedule Task_execute
               Sample.s0).
Proof.
  apply (proj1 (proj2 (proj2 (at_most_one_claim_and_execution
           Sample.registry Sample.continuous Sample.idle_schedule Task_execute Sample.s0)))
         4%positive (inr true)).
  apply (bool_decide_unpack _). vm_compute. exact I.
Defined.

(** C4: the operations of a tick come in the order of its phases: the
    orphaned schedules (0), the orphaned tasks (1), the schedules (2), the
    wake-up (3), the claim (4), the execution (5); every tick opens with
    the two orphan updates, schedules first; a tick that returns went
    through every schedule of the filtered registry, then the wake-up,
    then the claim, then the execution of the claimed row if there is one. *)
Theorem tick_phases_in_order (registry : Registries) (options : Options)
    (schedule_execute : Schedule → Z → Store → Store * (Exc + bool))
    (task_execute : Task → positive * TaskExec.t → Store → Store * (Exc + bool))
    (s : Store) :
  let o := tick registry options schedule_execute task_execute s in
  StronglySorted le (phases (emitted o))
  ∧ (∃ n1 n2 rest,
       emitted o
       = [Begin; UpdateSchedules n1; Commit;
          Begin; UpdateTasks TaskExec.INVALID n2; Commit] ++ rest)
  ∧ (∀ b, value o = inr b →
       ∃ claimed : bool,
         phases (emitted o)
         = (0 :: 1 :: replicate (length (schedules_to_check registry options)) 2
              ++ 3 :: 4 :: (if claimed then [4; 5] else []))%nat).
Proof.
  intros o. subst o.
  destruct (tick_shape registry options schedule_execute task_execute s)
    as (n1 & n2 & sched & tail & Htr & Hsched & Htail).
  rewrite Htr. unfold phases. rewrite !omap_app.
  fold (phases sched). rewrite (sched_phases _ Hsched).
  split; [|split].
  - cbn [omap list_omap phase app].
    apply replicate_sorted.
    + destruct Htail as [[-> _]|[_ Ht]]; [constructor|].
      inversion Ht; simpl; repeat (constructor; [|repeat constructor; lia]); constructor.
    + destruct Htail as [[-> _]|[_ Ht]]; [constructor|].
      inversion Ht; simpl; repeat constructor; lia.
  - by eexists _, _, _.
  - intros b Hb. destruct Htail as [[_ [e He]]|[Hlen Ht]]; [congruence|].
    rewrite Hlen. rewrite Hb in Ht. inversion Ht; subst.
    + by exists false.
    + by exists true.
Qed.

Lemma tick_phases_in_order_witness :
  ∃ claimed : bool,
    phases (emitted (tick Sample.registry Sample.continuous Sample.idle_schedule
                       Task_execute Sample.s0))
    = (0 :: 1 :: replicate 1 2 ++ 3 :: 4 :: (if claimed then [4; 5] else []))%nat.
Proof.
  apply (proj2 (proj2 (tick_phases_in_order
           Sample.registry Sample.continuous Sample.idle_schedule Task_execute Sample.s0))
         true).
  vm_compute. reflexivity.
Defined.

(** ** The outer loop *)

Section Loop.
Variable registry : Registries.
Variable options : Options.
Variable schedule_execute : Schedule → Z → Store → Store * (Exc + bool).
Variable task_execute : Task → positive * TaskExec.t → Store → Store * (Exc + bool).

#[local] Abbreviation tick_ := (tick registry options schedule_execute task_execute).
#[local] Abbreviation iteration_ :=
  (iteration registry options schedule_execute task_execute).
#[local] Abbreviation loop_ := (loop registry options schedule_execute task_execute).

Lemma iteration_run last_run s :
  iteration_ last_run s =
  let o := tick_ s in
  match value o with
  | inl e => mkOutcome (emitted o) (final o) (inl e)
  | inr did_something =>
      if once options then mkOutcome (emitted o) (final o) (inr Break)
      else if until_done options && negb did_something
      then mkOutcome (emitted o) (final o) (inr Break)
      else if did_something
      then mkOutcome (emitted o)
             (with_reads (S (reads (final o))) (final o))
             (inr (Continue (clock (final o) (reads (final o)))))
      else mkOutcome
             (emitted o ++
              [Sleep (Z.max 0 (tick_duration options
                               - (clock (final o) (reads (final o)) - last_run)))])
             (with_reads (S (S (reads (final o)))) (final o))
             (inr (Continue (clock (final o) (S (reads (final o))))))
  end.
Proof.
  unfold iteration. unfold mbind at 1. unfold M_bind, bind. cbv zeta.
  generalize (tick_ s). intros [tr fin [e|did]]; cbn [value final emitted]; [done|].
  destruct (once options); [by rewrite app_nil_r|].
  destruct (until_done options), did; simpl; rewrite ?app_nil_r; reflexivity.
Qed.

Lemma loop_S fuel last_run s :
  loop_ (S fuel) last_run s =
  let o := iteration_ last_run s in
  match value o with
  | inl e => mkOutcome (emitted o) (final o) (inl e)
  | inr Break => mkOutcome (emitted o) (final o) (inr Exited)
  | inr (Continue last_run') =>
      let o' := loop_ fuel last_run' (final o) in
      mkOutcome (emitted o ++ emitted o') (final o') (value o')
  end.
Proof.
  simpl. unfold mbind at 1. unfold M_bind, bind. cbv zeta.
  generalize (iteration_ last_run s). intros [tr fin [e|[|lr]]];
    cbn [value final emitted]; [done| |done].
  by rewrite app_nil_r.
Qed.

(** Without [--once] and [--until_done] no turn of the loop breaks. *)
Lemma loop_never_exits fuel last_run s :
  once options = false → until_done options = false →
  value (loop_ fuel last_run s) ≠ inr Exited.
Proof.
  intros Honce Huntil. revert last_run s.
  induction fuel as [|fuel IH]; intros last_run s; [done|].
  rewrite loop_S, iteration_run. cbv zeta. rewrite Honce, Huntil.
  destruct (value (tick_ s)) as [e|[|]]; cbn [value final emitted andb]; [done|..];
    apply IH.
Qed.
End Loop.


Section Loop_modes.
Variable registry : Registries.
Variable options : Options.
Variable schedule_execute : Schedule → Z → Store → Store * (Exc + bool).
Variable task_execute : Task → positive * TaskExec.t → Store → Store * (Exc + bool).

#[local] Abbreviation tick_ := (tick registry options schedule_execute task_execute).
#[local] Abbreviation iteration_ :=
  (iteration registry options schedule_execute task_execute).
#[local] Abbreviation loop_ := (loop registry options schedule_execute task_execute).

Lemma loop_once fuel last_run s :
  once options = true →
  emitted (loop_ (S fuel) last_run s) = emitted (tick_ s)
  ∧ final (loop_ (S fuel) last_run s) = final (tick_ s)
  ∧ value (loop_ (S fuel) last_run s)
    = match value (tick_ s) with inl exc => inl exc | inr _ => inr Exited end.
Proof.
  intros Honce. rewrite loop_S, iteration_run. cbv zeta. rewrite Honce.
  generalize (tick_ s). by intros [tr fin [exc|did]].
Qed.

Lemma loop_until_done fuel last_run s :
  once options = false → until_done options = true →
  match value (tick_ s) with
  | inl exc => value (loop_ (S fuel) last_run s) = inl exc
  | inr false =>
      value (loop_ (S fuel) last_run s) = inr Exited
      ∧ emitted (loop_ (S fuel) last_run s) = emitted (tick_ s)
      ∧ final (loop_ (S fuel) last_run s) = final (tick_ s)
  | inr true =>
      ∃ last_run',
        value (iteration_ last_run s) = inr (Continue last_run')
        ∧ emitted (iteration_ last_run s) = emitted (tick_ s)
        ∧ value (loop_ (S fuel) last_run s)
          = value (loop_ fuel last_run' (final (iteration_ last_run s)))
  end.
Proof.
  intros Honce Huntil. rewrite loop_S, !iteration_run. cbv zeta.
  rewrite Honce, Huntil.
  generalize (tick_ s). intros [tr fin [exc|[|]]]; cbn [value final emitted andb negb];
    [done| |done].
  eexists. split; [reflexivity|]. split; reflexivity.
Qed.

Lemma handle_never_exits fuel s :
  once options = false → until_done options = false →
  value (handle registry options schedule_execute task_execute fuel s) ≠ inr Exited.
Proof.
  intros Honce Huntil. unfold handle. unfold mbind, M_bind, bind, now.
  cbn [value final emitted]. by apply loop_never_exits.
Qed.
End Loop_modes.

(** C6: the loop has three ways to run.  With [--once] it leaves after
    its first tick whatever the tick returned, having done nothing but
    that tick; with [--until_done] it leaves after a tick exactly when that
    tick returned false, and goes on to the next turn when it returned
    true; with neither it never leaves through a [break]. *)
Theorem three_termination_modes (registry : Registries) (q e : list string) (d : Z)
    (schedule_execute : Schedule → Z → Store → Store * (Exc + bool))
    (task_execute : Task → positive * TaskExec.t → Store → Store * (Exc + bool))
    (fuel : nat) (last_run : Z) (s : Store) :
  (∀ ud,
     let opts := mkOptions q e true ud d in
     let t := tick registry opts schedule_execute task_execute s in
     let o := loop registry opts schedule_execute task_execute (S fuel) last_run s in
     emitted o = emitted t ∧ final o = final t
     ∧ value o = match value t with inl exc => inl exc | inr _ => inr Exited end)
  ∧ (let opts := mkOptions q e false true d in
     let t := tick registry opts schedule_execute task_execute s in
     let i := iteration registry opts schedule_execute task_execute last_run s in
     let o := loop registry opts schedule_execute task_execute (S fuel) last_run s in
     match value t with
     | inl exc => value o = inl exc
     | inr false => value o = inr Exited ∧ emitted o = emitted t ∧ final o = final t
     | inr true =>
         ∃ last_run',
           value i = inr (Continue last_run') ∧ emitted i = emitted t
           ∧ value o = value (loop registry opts schedule_execute task_execute fuel
                                last_run' (final i))
     end)
  ∧ (let opts := mkOptions q e false false d in
     value (handle registry opts schedule_execute task_execute fuel s) ≠ inr Exited
     ∧ value (loop registry opts schedule_execute task_execute fuel last_run s)
       ≠ inr Exited).
Proof.
  split; [|split].
  - intros ud. exact (loop_once registry (mkOptions q e true ud d) _ _ fuel last_run s
                        eq_refl).
  - exact (loop_until_done registry (mkOptions q e false true d) _ _ fuel last_run s
             eq_refl eq_refl).
  - split.
    + exact (handle_never_exits registry (mkOptions q e false false d) _ _ fuel s
               eq_refl eq_refl).
    + exact (loop_never_exits registry (mkOptions q e false false d) _ _ fuel last_run s
               eq_refl eq_refl).
Qed.

(** C10: what a tick returns is the disjunction of what the calls to
    [schedule.execute] and [task.execute] returned; the counts of the
    orphan updates and of the wake-up are no part of it.  A tick that
    returns false ends the loop under [--until_done]. *)
Theorem did_something_is_what_was_reported (registry : Registries) (options : Options)
    (schedule_execute : Schedule → Z → Store → Store * (Exc + bool))
    (task_execute : Task → positive * TaskExec.t → Store → Store * (Exc + bool))
    (s : Store) (b : bool) :
  let o := tick registry options schedule_execute task_execute s in
  value o = inr b →
  b = existsb reported (emitted o)
  ∧ (∀ count, reported (UpdateSchedules count) = false)
  ∧ (∀ st count, reported (UpdateTasks st count) = false)
  ∧ (b = false → once options = false → until_done options = true →
     ∀ fuel last_run,
       value (loop registry options schedule_execute task_execute (S fuel) last_run s)
       = inr Exited).
Proof.
  intros o Hb. subst o. split; [|split; [done|split; [done|]]].
  - destruct (tick_shape registry options schedule_execute task_execute s)
      as (n1 & n2 & sched & tail & -> & Hsched & Htail).
    destruct Htail as [[_ [exc He]]|[_ Ht]]; [congruence|].
    rewrite Hb in Ht. rewrite !existsb_app. cbn [existsb reported orb].
    inversion Ht as [count|count pk r]; subst; cbn [existsb reported orb].
    + by rewrite ?orb_false_r.
    + destruct r as [e|d]; [done|].
      match goal with H : inr _ = inr _ |- _ => injection H as <- end.
      cbn [existsb reported orb]. by rewrite ?orb_false_r.
  - intros -> Honce Huntil fuel last_run.
    pose proof (loop_until_done registry options schedule_execute task_execute
                  fuel last_run s Honce Huntil) as Hloop.
    rewrite Hb in Hloop. tauto.
Qed.

Lemma did_something_is_what_was_reported_witness :
  UpdateTasks TaskExec.INVALID 1
    ∈ emitted (tick Sample.registry Sample.other_queue Sample.idle_schedule Task_execute
                 Sample.s0)
  ∧ UpdateTasks TaskExec.QUEUED 1
    ∈ emitted (tick Sample.registry Sample.other_queue Sample.idle_schedule Task_execute
                 Sample.s0)
  ∧ value (loop Sample.registry Sample.other_queue Sample.idle_schedule Task_execute
             1 0 Sample.s0) = inr Exited.
Proof.
  split; [|split].
  - apply (bool_decide_unpack _). vm_compute. exact I.
  - apply (bool_decide_unpack _). vm_compute. exact I.
  - assert (value (tick Sample.registry Sample.other_queue Sample.idle_schedule
                     Task_execute Sample.s0) = inr false) as E
      by (vm_compute; reflexivity).
    exact (proj2 (proj2 (proj2 (did_something_is_what_was_reported
             Sample.registry Sample.other_queue Sample.idle_schedule Task_execute
             Sample.s0 false E))) eq_refl eq_refl eq_refl 0%nat 0).
Defined.

(** C7, as stated, fails: after a tick that did something the loop goes
    on to its next turn without sleeping. *)
Lemma sleeps_after_every_tick_counterexample :
  let i := iteration Sample.registry Sample.continuous Sample.idle_schedule Task_execute
             100 Sample.s0 in
  value (tick Sample.registry Sample.continuous Sample.idle_schedule Task_execute
           Sample.s0) = inr true
  ∧ value i = inr (Continue 102)
  ∧ List.filter is_sleep (emitted i) = [].
Proof. vm_compute. repeat split. Qed.

(** C7, amended: in a turn that does not leave the loop, a tick that
    returned false is followed by one sleep of the tick interval minus
    the time elapsed since [last_run], floored at zero, and [last_run] is
    read again after it, so that when the sleep lasts what was asked and
    the tick took no longer than the interval, the next [last_run] is one
    interval after the previous one; a tick that returned true is followed
    by no sleep. *)
Theorem sleeps_only_after_idle_tick (registry : Registries) (options : Options)
    (schedule_execute : Schedule → Z → Store → Store * (Exc + bool))
    (task_execute : Task → positive * TaskExec.t → Store → Store * (Exc + bool))
    (last_run : Z) (s : Store) (did_something : bool) :
  let t := tick registry options schedule_execute task_execute s in
  let i := iteration registry options schedule_execute task_execute last_run s in
  let after_tick := clock (final t) (reads (final t)) in
  let after_sleep := clock (final t) (S (reads (final t))) in
  let seconds := Z.max 0 (tick_duration options - (after_tick - last_run)) in
  value t = inr did_something →
  once options = false →
  until_done options && negb did_something = false →
  if did_something
  then emitted i = emitted t ∧ value i = inr (Continue after_tick)
  else emitted i = emitted t ++ [Sleep seconds]
       ∧ value i = inr (Continue after_sleep)
       ∧ (0 ≤ after_tick - last_run ≤ tick_duration options →
          after_sleep = after_tick + seconds →
          after_sleep = last_run + tick_duration options).
Proof.
  intros t i after_tick after_sleep seconds Ht Honce Huntil.
  subst i seconds after_sleep after_tick t. rewrite !iteration_run. cbv zeta.
  rewrite Honce. revert Ht. generalize (tick registry options schedule_execute
                                          task_execute s).
  intros [tr fin v]. cbn [value final emitted]. intros ->.
  rewrite Huntil. destruct did_something; cbn [value final emitted].
  - done.
  - split; [done|]. split; [done|]. lia.
Qed.

Lemma sleeps_only_after_idle_tick_witness :
  let t := tick Sample.registry Sample.continuous Sample.idle_schedule Task_execute
             Sample.idle_store in
  let i := iteration Sample.registry Sample.continuous Sample.idle_schedule Task_execute
             100 Sample.idle_store in
  emitted i = emitted t ++ [Sleep 7] ∧ value i = inr (Continue 110).
Proof.
  assert (value (tick Sample.registry Sample.continuous Sample.idle_schedule Task_execute
                   Sample.idle_store) = inr false) as E by (vm_compute; reflexivity).
  pose proof (sleeps_only_after_idle_tick Sample.registry Sample.continuous
                Sample.idle_schedule Task_execute 100 Sample.idle_store false
                E eq_refl eq_refl) as (H1 & H2 & _).
  split; [exact H1 | exact H2].
Defined.

(** ** The executor *)

Lemma tick_until_claim_claimed registry options schedule_execute s did pk claimed :
  value (tick_until_claim registry options schedule_execute s)
  = inr (did, Some (pk, claimed)) →
  ∃ s', value (claim registry options s') = inr (Some (pk, claimed)).
Proof.
  unfold tick_until_claim. unfold mbind, M_bind, bind.
  rewrite disable_orphaned_schedules_run. cbv zeta. cbn [value final emitted].
  rewrite disable_orphaned_tasks_run. cbv zeta. cbn [value final emitted].
  generalize (check_schedules options schedule_execute
                (schedules_to_check registry options) false).
  intros m. generalize (m (with_task_execs
    (update (orphaned_task (task_keys (tasks_registry registry)))
       (TaskExec.set_state TaskExec.INVALID)
       (task_execs (with_schedule_execs
          (update (orphaned_schedule (schedule_keys (schedules_registry registry)))
             (ScheduleExec.set_state ScheduleExec.INVALID) (schedule_execs s)).2 s))).2
    (with_schedule_execs
       (update (orphaned_schedule (schedule_keys (schedules_registry registry)))
          (ScheduleExec.set_state ScheduleExec.INVALID) (schedule_execs s)).2 s))).
  intros [tr fin [e|d]]; cbn [value final emitted]; [done|].
  rewrite wake_up_tasks_run. cbv zeta. cbn [value final emitted].
  match goal with |- context [claim registry options ?s4] => generalize s4 end.
  intros s4. destruct (value (claim registry options s4)) as [e|te] eqn:E;
    cbn [value final emitted]; [done|].
  unfold mret, M_ret, ret. cbn [value]. intros [= _ ->]. by exists s4.
Qed.

(** C9: with the executor of section 4.5, a tick that claimed a row whose
    callable raises returns true; the row is left FAILED with the failure
    detail; and a loop that was not asked to run once goes on to its next
    turn. *)
Theorem failing_callable_is_captured (registry : Registries) (options : Options)
    (schedule_execute : Schedule → Z → Store → Store * (Exc + bool))
    (s : Store) (did : bool) (pk : positive) (claimed : TaskExec.t) :
  let o := tick_until_claim registry options schedule_execute s in
  let t := tick registry options schedule_execute Task_execute s in
  value o = inr (did, Some (pk, claimed)) →
  ∃ task,
    getitem (tasks_registry registry) (TaskExec.task_name claimed) = Some task
    ∧ ∀ s' detail, callable task (final o) = (s', inr detail) →
        value t = inr true
        ∧ task_execs (final t) !! pk
          = Some (TaskExec.set_error detail
                    (TaskExec.set_state TaskExec.FAILED claimed))
        ∧ (once options = false →
           ∀ last_run, ∃ last_run',
             value (iteration registry options schedule_execute Task_execute
                      last_run s) = inr (Continue last_run')).
Proof.
  intros o t Ho. subst o t.
  destruct (tick_until_claim_claimed _ _ _ _ _ _ _ Ho) as [s4 Hclaim].
  apply claim_registered, getitem_is_Some in Hclaim as [task Htask].
  exists task. split; [done|]. intros s' detail Hcall.
  assert (Htick :
    value (tick registry options schedule_execute Task_execute s) = inr true
    ∧ task_execs (final (tick registry options schedule_execute Task_execute s)) !! pk
      = Some (TaskExec.set_error detail (TaskExec.set_state TaskExec.FAILED claimed))).
  { rewrite tick_split. unfold mbind, M_bind, bind.
    revert Ho Hcall. generalize (tick_until_claim registry options schedule_execute s).
    intros [tr fin v]. cbn [value final emitted]. intros -> Hcall.
    cbn [fst snd execute_claimed]. rewrite Htask.
    unfold mbind, M_bind, bind, call, emit, mret, M_ret, ret, Task_execute.
    cbn [value final emitted fst snd]. rewrite Hcall. cbn [fst snd].
    cbn [value final emitted task_execs with_task_execs].
    split; [by rewrite orb_true_r|]. by rewrite lookup_insert_eq. }
  destruct Htick as [Hv Hrow]. split; [done|]. split; [done|].
  intros Honce last_run. rewrite iteration_run. cbv zeta. rewrite Hv, Honce.
  rewrite andb_false_r. cbn [value]. by eexists.
Qed.

Lemma failing_callable_is_captured_witness :
  let t := tick Sample.registry Sample.continuous Sample.idle_schedule Task_execute
             Sample.crash_store in
  value t = inr true
  ∧ task_execs (final t) !! 7%positive
    = Some (TaskExec.Build "crash" TaskExec.FAILED 0 0 (Some 101) None
              (Some "ValueError: boom")).
Proof.
  assert (value (tick_until_claim Sample.registry Sample.continuous Sample.idle_schedule
                   Sample.crash_store)
          = inr (false, Some (7%positive,
                   TaskExec.Build "crash" TaskExec.PROCESSING 0 0 (Some 101) None None)))
    as E by (vm_compute; reflexivity).
  destruct (failing_callable_is_captured Sample.registry Sample.continuous
              Sample.idle_schedule Sample.crash_store _ _ _ E) as (task & Hget & H).
  assert (Some task = Some Sample.crash) as [= ->]
    by (rewrite <- Hget; vm_compute; reflexivity).
  destruct (H _ "ValueError: boom"%string eq_refl) as (H1 & H2 & _).
  split; [exact H1 | exact H2].
Defined.

(** ** Further properties of the bulk updates *)

Lemma update_update_lookup {A} (P Q : A → bool) (f g : A → A) (tbl : gmap positive A) k :
  (update Q g (update P f tbl).2).2 !! k
  = (λ r, let r' := if P r then f r else r in if Q r' then g r' else r') <$> tbl !! k.
Proof. rewrite !update_lookup. by destruct (tbl !! k). Qed.

(** X1: waking the sleepers at two successive readings of a clock that
    did not go back leaves the same rows as waking them once at the later
    reading. *)
Theorem wake_up_later_subsumes_earlier (s : Store) :
  clock s (reads s) ≤ clock s (S (reads s)) →
  task_execs (final (wake_up_tasks (final (wake_up_tasks s))))
  = task_execs (final (wake_up_tasks (with_reads (S (reads s)) s))).
Proof.
  intros Hclock. rewrite !wake_up_tasks_run. cbv zeta.
  cbn [final task_execs with_task_execs with_reads clock reads].
  apply map_eq. intros k. rewrite update_update_lookup, update_lookup.
  destruct (task_execs s !! k) as [r|]; [|done]. simpl. f_equal.
  destruct (sleeping_due (clock s (reads s)) r) eqn:E1.
  - rewrite sleeping_due_fixed.
    apply sleeping_due_true in E1 as [Hst Hdue].
    assert (sleeping_due (clock s (S (reads s))) r = true) as ->; [|done].
    apply sleeping_due_true. split; [done | lia].
  - done.
Qed.

Lemma wake_up_later_subsumes_earlier_witness :
  task_execs (final (wake_up_tasks (final (wake_up_tasks Sample.s0))))
  = task_execs (final (wake_up_tasks (with_reads 1 Sample.s0))).
Proof.
  apply (wake_up_later_subsumes_earlier Sample.s0). vm_compute. discriminate.
Defined.

(** X2: the invalidation of the orphaned tasks and the wake-up commute:
    in either order they leave the same rows. *)
Theorem orphans_and_wake_up_commute (registry : Registries) (s : Store) :
  task_execs (final ((disable_orphaned_tasks registry ;; wake_up_tasks) s))
  = task_execs (final ((wake_up_tasks ;; disable_orphaned_tasks registry) s)).
Proof.
  unfold mbind, M_bind, bind.
  rewrite !disable_orphaned_tasks_run, !wake_up_tasks_run. cbv zeta.
  cbn [value final emitted]. rewrite ?disable_orphaned_tasks_run, ?wake_up_tasks_run.
  cbv zeta. cbn [final task_execs with_task_execs with_reads clock reads].
  apply map_eq. intros k. rewrite !update_update_lookup.
  destruct (task_execs s !! k) as [r|]; [|done]. simpl. f_equal.
  destruct r as [name st due created started result error].
  unfold orphaned_task, sleeping_due, TaskExec.set_state. simpl.
  destruct st; simpl; repeat case_bool_decide; simpl; try done; try lia.
Qed.

(** X3: with no task registered, the invalidation leaves every row
    INVALID, and the claim finds nothing in any store. *)
Theorem nothing_registered_invalidates_all (registry : Registries) (options : Options)
    (s : Store) :
  tasks_registry registry = [] →
  (∀ k r, task_execs s !! k = Some r →
     task_execs (final (disable_orphaned_tasks registry s)) !! k
     = Some (TaskExec.set_state TaskExec.INVALID r))
  ∧ ∀ s', value (claim registry options s') = inr None.
Proof.
  intros Hreg. split.
  - intros k r Hk. rewrite disable_orphaned_tasks_run. cbv zeta.
    cbn [final task_execs with_task_execs]. rewrite Hreg.
    destruct (orphaned_task (task_keys []) r) eqn:E.
    + by apply update_lookup_match.
    + rewrite (update_lookup_other _ _ _ _ _ Hk E). f_equal. symmetry.
      apply set_state_same_task.
      destruct (decide (TaskExec.state r = TaskExec.INVALID)) as [|Hne]; [done|].
      assert (orphaned_task (task_keys []) r = true) as E'.
      { apply orphaned_task_true. split; [done|]. apply not_elem_of_nil. }
      congruence.
  - intros s'. rewrite claim_run.
    destruct (first _) as [[pk row]|] eqn:Hfirst; [|done].
    apply first_tasks_execs_Some in Hfirst as (_ & Hq & _).
    apply queued_for_spec in Hq as [_ (task & Hin & _)].
    rewrite Hreg in Hin. by apply elem_of_nil in Hin.
Qed.

Lemma nothing_registered_invalidates_all_witness :
  task_execs (final (disable_orphaned_tasks Sample.nothing_registered Sample.s0))
    !! 1%positive
  = Some (Sample.row "cleanup" TaskExec.INVALID 5 1).
Proof.
  apply (proj1 (nothing_registered_invalidates_all Sample.nothing_registered
                  Sample.continuous Sample.s0 eq_refl)
           1%positive (Sample.row "cleanup" TaskExec.QUEUED 5 1)).
  reflexivity.
Defined.

(** ** Further properties of the claim *)

Lemma claim_Some registry options s pk claimed :
  value (claim registry options s) = inr (Some (pk, claimed)) →
  ∃ row,
    task_execs s !! pk = Some row
    ∧ queued_for (task_name <$> tasks_to_check registry options) row = true
    ∧ (∀ pk2 r2, task_execs s !! pk2 = Some r2 →
         queued_for (task_name <$> tasks_to_check registry options) r2 = true →
         row_le (tasks_registry registry) (pk, row) (pk2, r2))
    ∧ claimed = TaskExec.set_state TaskExec.PROCESSING
                  (TaskExec.set_started (clock s (reads s)) row)
    ∧ task_execs (final (claim registry options s)) = <[pk := claimed]> (task_execs s).
Proof.
  rewrite claim_run.
  destruct (first _) as [[pk' row]|] eqn:Hfirst; [|done].
  cbv zeta. cbn [value final task_execs with_task_execs]. intros [= -> <-].
  apply first_tasks_execs_Some in Hfirst as (Hk & Hq & Hmin).
  by exists row.
Qed.

(** X4: an eligible row that comes strictly before every other eligible
    row in the order of the queryset is the row the claim takes. *)
Theorem strictly_first_row_is_claimed (registry : Registries) (options : Options)
    (s : Store) (pk : positive) (row : TaskExec.t) :
  task_execs s !! pk = Some row →
  eligible registry options row →
  (∀ pk2 r2, pk2 ≠ pk → task_execs s !! pk2 = Some r2 →
     eligible registry options r2 →
     ¬ claimed_no_later (tasks_registry registry) r2 row) →
  value (claim registry options s)
  = inr (Some (pk, TaskExec.set_state TaskExec.PROCESSING
                     (TaskExec.set_started (clock s (reads s)) row))).
Proof.
  intros Hk Hel Hstrict. rewrite claim_run.
  destruct (first _) as [[pk' row']|] eqn:Hfirst; cbv zeta; cbn [value].
  - apply first_tasks_execs_Some in Hfirst as (Hk' & Hq' & Hmin).
    destruct (decide (pk' = pk)) as [->|Hne].
    + rewrite Hk in Hk'. by injection Hk' as <-.
    + exfalso. apply (Hstrict pk' row' Hne Hk'); [by apply queued_for_spec|].
      apply (row_le_spec _ (pk', row') (pk, row)), Hmin; [done|].
      by apply queued_for_spec.
  - apply queued_for_spec in Hel.
    by rewrite (first_tasks_execs_None _ _ _ Hfirst pk row Hk) in Hel.
Qed.

Lemma strictly_first_row_is_claimed_witness :
  value (claim Sample.registry Sample.continuous Sample.s0)
  = inr (Some (2%positive,
               TaskExec.Build "send_email" TaskExec.PROCESSING 50 2 (Some 100) None None)).
Proof.
  apply (strictly_first_row_is_claimed Sample.registry Sample.continuous Sample.s0
           2%positive (Sample.row "send_email" TaskExec.QUEUED 50 2)).
  - reflexivity.
  - split; [reflexivity|]. exists Sample.send_email.
    split; [by left|]. split; reflexivity.
  - intros pk2 r2 Hne Hk2 [Hst _] Hle.
    apply elem_of_map_to_list in Hk2. vm_compute in Hk2.
    repeat (apply elem_of_cons in Hk2 as [Hk2|Hk2];
            [injection Hk2 as -> ->; try done;
             destruct Hle as [H|[H _]]; vm_compute in H; discriminate|]).
    by apply elem_of_nil in Hk2.
Defined.

(** X5: two claims in a row never take the same row, and the row of the
    second comes no earlier in the order than the row of the first. *)
Theorem successive_claims_in_order (registry : Registries) (options : Options)
    (s : Store) (pk1 pk2 : positive) (claimed1 claimed2 : TaskExec.t) :
  value (claim registry options s) = inr (Some (pk1, claimed1)) →
  value (claim registry options (final (claim registry options s)))
  = inr (Some (pk2, claimed2)) →
  pk1 ≠ pk2
  ∧ ∃ row1 row2,
      task_execs s !! pk1 = Some row1 ∧ task_execs s !! pk2 = Some row2
      ∧ claimed_no_later (tasks_registry registry) row1 row2.
Proof.
  intros H1 H2.
  apply claim_Some in H1 as (row1 & Hk1 & Hq1 & Hmin1 & -> & Htbl).
  apply claim_Some in H2 as (row2 & Hk2 & Hq2 & _).
  rewrite Htbl in Hk2.
  assert (pk1 ≠ pk2) as Hne.
  { intros <-. rewrite lookup_insert_eq in Hk2. injection Hk2 as <-.
    unfold queued_for in Hq2. simpl in Hq2. done. }
  split; [done|]. rewrite lookup_insert_ne in Hk2 by done.
  exists row1, row2. split; [done|]. split; [done|].
  by apply (row_le_spec _ (pk1, row1) (pk2, row2)), Hmin1.
Qed.

Lemma successive_claims_in_order_witness :
  2%positive ≠ 1%positive
  ∧ ∃ row1 row2,
      task_execs Sample.s0 !! 2%positive = Some row1
      ∧ task_execs Sample.s0 !! 1%positive = Some row2
      ∧ claimed_no_later (tasks_registry Sample.registry) row1 row2.
Proof.
  apply (successive_claims_in_order Sample.registry Sample.continuous Sample.s0
           2%positive 1%positive
           (TaskExec.Build "send_email" TaskExec.PROCESSING 50 2 (Some 100) None None)
           (TaskExec.Build "cleanup" TaskExec.PROCESSING 5 1 (Some 101) None None));
    vm_compute; reflexivity.
Defined.

Lemma getitem_NoDup reg task :
  NoDup (task_keys reg) → task ∈ reg → getitem reg (task_name task) = Some task.
Proof.
  unfold task_keys. induction reg as [|t reg IH]; [by intros _ ?%elem_of_nil|].
  rewrite fmap_cons, NoDup_cons, getitem_cons. intros [Hnotin Hnd] Hin.
  apply elem_of_cons in Hin as [->|Hin]; [by rewrite decide_True|].
  rewrite decide_False; [by apply IH|].
  intros Heq. apply Hnotin. rewrite Heq. by apply list_elem_of_fmap_2.
Qed.

(** X6: when the names of the registry are distinct, the definition
    under which a claimed row is executed is in a queue that passes the
    filter of the worker. *)
Theorem claimed_task_is_in_the_queues (registry : Registries) (options : Options)
    (s : Store) (pk : positive) (claimed : TaskExec.t) :
  NoDup (task_keys (tasks_registry registry)) →
  value (claim registry options s) = inr (Some (pk, claimed)) →
  ∃ task,
    getitem (tasks_registry registry) (TaskExec.task_name claimed) = Some task
    ∧ queue_passes (queue options) (exclude_queue options) (task_queue task) = true.
Proof.
  intros Hnd Hclaim.
  apply claim_Some in Hclaim as (row & _ & Hq & _ & -> & _).
  apply queued_for_spec in Hq as [_ (task & Hin & Hname & Hpass)].
  exists task. split; [|done]. simpl. rewrite <- Hname. by apply getitem_NoDup.
Qed.

Lemma claimed_task_is_in_the_queues_witness :
  ∃ task,
    getitem (tasks_registry Sample.registry) "send_email" = Some task
    ∧ queue_passes [] [] (task_queue task) = true.
Proof.
  apply (claimed_task_is_in_the_queues Sample.registry Sample.continuous Sample.s0
           2%positive
           (TaskExec.Build "send_email" TaskExec.PROCESSING 50 2 (Some 100) None None)).
  - apply (bool_decide_unpack _). vm_compute. exact I.
  - vm_compute. reflexivity.
Defined.

(** ** Further properties of the trace of a tick *)

Section Tick_trace.
Variable registry : Registries.
Variable options : Options.
Variable schedule_execute : Schedule → Z → Store → Store * (Exc + bool).
Variable task_execute : Task → positive * TaskExec.t → Store → Store * (Exc + bool).

Lemma check_schedules_calls l acc s :
  let o := check_schedules options schedule_execute l acc s in
  executed_schedules (emitted o) `prefix_of` schedule_name <$> l
  ∧ (∀ b, value o = inr b → executed_schedules (emitted o) = schedule_name <$> l)
  ∧ (∀ e, value o = inl e → ∃ name, last (emitted o) = Some (ScheduleExecute name (inl e))).
Proof.
  revert acc s. induction l as [|schedule l IH]; intros acc s; simpl.
  - split; [done|]. split; [done|]. intros e [=].
  - unfold mbind, M_bind, bind, call. simpl.
    destruct (schedule_execute _ _ s).2 as [e|did] eqn:E; simpl.
    + split; [apply prefix_cons, prefix_nil|]. split; [intros b [=]|].
      intros e' [= <-]. by eexists.
    + specialize (IH (acc || did) (schedule_execute schedule (tick_duration options) s).1).
      cbv zeta in IH. destruct IH as (Hpre & Hret & Hraise).
      destruct (value (check_schedules _ _ l (acc || did) _)) as [e|b'] eqn:E2; simpl.
      * split; [by apply prefix_cons|]. split; [intros b [=]|].
        intros e' [= <-]. destruct (Hraise e eq_refl) as [name Hlast].
        exists name. destruct (emitted _); [done|]. exact Hlast.
      * split; [by apply prefix_cons|]. split; [|intros e [=]].
        intros b _. f_equal. by apply (Hret b').
Qed.

(** The trace of a tick around the calls of its schedules. *)
Lemma tick_trace s :
  let t := tick registry options schedule_execute task_execute s in
  ∃ n1 n2 s2 tail,
    let o := check_schedules options schedule_execute
               (schedules_to_check registry options) false s2 in
    emitted t
    = [Begin; UpdateSchedules n1; Commit; Begin; UpdateTasks TaskExec.INVALID n2; Commit]
      ++ emitted o ++ tail
    ∧ match value o with
      | inl e => tail = [] ∧ value t = inl e
      | inr did => tick_tail did tail (value t)
      end.
Proof.
  unfold tick. unfold mbind, M_bind, bind.
  rewrite disable_orphaned_schedules_run. cbv zeta. cbn [value final emitted].
  set (s1 := with_schedule_execs _ s).
  rewrite disable_orphaned_tasks_run. cbv zeta. cbn [value final emitted].
  set (s2 := with_task_execs _ s1).
  unfold schedules_to_check.
  set (o3 := check_schedules options schedule_execute _ false s2).
  destruct (value o3) as [e|did] eqn:E3; cbn [value final emitted].
  { do 2 eexists. exists s2, []. fold o3. rewrite E3, app_nil_r. done. }
  rewrite wake_up_tasks_run. cbv zeta. cbn [value final emitted].
  set (s4 := with_task_execs _ _).
  pose proof (claim_registered registry options s4) as Hreg.
  rewrite claim_run in Hreg |- *.
  destruct (first _) as [[pk row]|]; cbv zeta in Hreg |- *;
    cbn [value final emitted] in Hreg |- *.
  - specialize (Hreg _ _ eq_refl). apply getitem_is_Some in Hreg as [task Htask].
    unfold execute_claimed. cbn [fst snd]. rewrite Htask.
    set (te := (pk, _)). set (s5 := with_task_execs _ _).
    unfold mbind, M_bind, bind, call, mret, M_ret, ret.
    cbn [value final emitted].
    destruct (task_execute task te s5).2 as [e|d] eqn:E6; cbn [value final emitted].
    + simpl; rewrite ?app_nil_r, <- ?app_assoc; simpl.
      do 2 eexists. exists s2. eexists. fold o3. rewrite E3.
      split; [reflexivity|]. apply (tail_executed _ _ pk (inl e)).
    + simpl; rewrite ?app_nil_r, <- ?app_assoc; simpl.
      do 2 eexists. exists s2. eexists. fold o3. rewrite E3.
      split; [reflexivity|]. apply (tail_executed _ _ pk (inr d)).
  - unfold execute_claimed, mret, M_ret, ret. cbn [value final emitted].
    simpl; rewrite ?app_nil_r, <- ?app_assoc; simpl.
    do 2 eexists. exists s2. eexists. fold o3. rewrite E3.
    split; [reflexivity|]. constructor.
Qed.

Lemma tick_no_sleep s :
  Forall (λ e, is_sleep e = false)
    (emitted (tick registry options schedule_execute task_execute s)).
Proof.
  destruct (tick_shape registry options schedule_execute task_execute s)
    as (n1 & n2 & sched & tail & -> & Hsched & Htail).
  rewrite !Forall_app. split; [by repeat constructor|]. split.
  - eapply Forall_impl; [exact Hsched|]. by intros e (name & r & ->).
  - destruct Htail as [[-> _]|[_ Ht]]; [constructor|].
    inversion Ht; by repeat constructor.
Qed.
End Tick_trace.



(** X8: the schedules a tick calls [execute] on are, in the order of the
    calls, an initial part of the filtered registry, and the whole of it
    when the tick returns: every schedule of the worker's queues is
    evaluated, whatever the earlier ones returned. *)
Theorem every_schedule_is_executed_in_order (registry : Registries) (options : Options)
    (schedule_execute : Schedule → Z → Store → Store * (Exc + bool))
    (task_execute : Task → positive * TaskExec.t → Store → Store * (Exc + bool))
    (s : Store) :
  let t := tick registry options schedule_execute task_execute s in
  executed_schedules (emitted t)
    `prefix_of` schedule_name <$> schedules_to_check registry options
  ∧ ∀ b, value t = inr b →
      executed_schedules (emitted t)
      = schedule_name <$> schedules_to_check registry options.
Proof.
  intros t. subst t.
  destruct (tick_trace registry options schedule_execute task_execute s)
    as (n1 & n2 & s2 & tail & Htr & Hcase).
  cbv zeta in Htr, Hcase. rewrite Htr.
  pose proof (check_schedules_calls options schedule_execute
                (schedules_to_check registry options) false s2) as (Hpre & Hret & _).
  assert (executed_schedules tail = []) as Htail.
  { destruct (value (check_schedules options schedule_execute _ false s2)).
    - by destruct Hcase as [-> _].
    - by inversion Hcase. }
  unfold executed_schedules in *. rewrite !omap_app, Htail, app_nil_r.
  cbn [omap list_omap app]. split; [exact Hpre|].
  intros b Hb.
  destruct (value (check_schedules options schedule_execute _ false s2)) as [e|did].
  - destruct Hcase as [_ He]. congruence.
  - by apply (Hret did).
Qed.

Lemma every_schedule_is_executed_in_order_witness :
  executed_schedules
    (emitted (tick Sample.registry Sample.continuous Sample.idle_schedule Task_execute
                Sample.s0))
  = ["daily_report"].
Proof.
  apply (proj2 (every_schedule_is_executed_in_order Sample.registry Sample.continuous
                  Sample.idle_schedule Task_execute Sample.s0) true).
  vm_compute. reflexivity.
Defined.

Lemma bracketed_schedule_events sched rest :
  schedule_events sched → bracketed false (sched ++ rest) = bracketed false rest.
Proof. induction 1 as [|e l (name & r & ->) _ IH]; [done|]. simpl. exact IH. Qed.

(** X9: in every tick the transactions are opened and closed in turn,
    the selection for update and the save happen inside one, and every
    call of [schedule.execute] and of [task.execute] happens outside: the
    claim is committed before the claimed task runs, and a call that
    raises leaves no transaction open. *)
Theorem calls_happen_outside_transactions (registry : Registries) (options : Options)
    (schedule_execute : Schedule → Z → Store → Store * (Exc + bool))
    (task_execute : Task → positive * TaskExec.t → Store → Store * (Exc + bool))
    (s : Store) :
  bracketed false (emitted (tick registry options schedule_execute task_execute s))
  = true.
Proof.
  destruct (tick_shape registry options schedule_execute task_execute s)
    as (n1 & n2 & sched & tail & -> & Hsched & Htail).
  cbn [app bracketed negb andb]. rewrite (bracketed_schedule_events _ _ Hsched).
  destruct Htail as [[-> _]|[_ Ht]]; [done|]. by inversion Ht.
Qed.

(** ** Further properties of the outer loop *)

Section Loop_trace.
Variable registry : Registries.
Variable options : Options.
Variable schedule_execute : Schedule → Z → Store → Store * (Exc + bool).
Variable task_execute : Task → positive * TaskExec.t → Store → Store * (Exc + bool).

(** What holds of the operations of every tick, and of the sleeps the
    loop adds, holds of every operation of the loop. *)
Lemma loop_events (Q : Event → Prop) fuel last_run s :
  (∀ s', Forall Q (emitted (tick registry options schedule_execute task_execute s'))) →
  (∀ s' did last_run',
     value (tick registry options schedule_execute task_execute s') = inr did →
     once options = false → until_done options && negb did = false → did = false →
     Q (Sleep (Z.max 0 (tick_duration options
                        - (clock (final (tick registry options schedule_execute
                                           task_execute s'))
                             (reads (final (tick registry options schedule_execute
                                              task_execute s')))
                           - last_run'))))) →
  Forall Q (emitted (loop registry options schedule_execute task_execute fuel last_run s)).
Proof.
  intros Htick Hsleep. revert last_run s.
  induction fuel as [|fuel IH]; intros last_run s; [constructor|].
  rewrite loop_S, iteration_run. cbv zeta.
  pose proof (Htick s) as Ht. pose proof (Hsleep s) as Hs.
  revert Ht Hs. generalize (tick registry options schedule_execute task_execute s).
  intros [tr fin [e|did]]; cbn [value final emitted]; intros Ht Hs; [done|].
  destruct (once options) eqn:Honce; cbn [value final emitted]; [done|].
  destruct (until_done options && negb did) eqn:Hud; cbn [value final emitted]; [done|].
  destruct did; cbn [value final emitted].
  - apply Forall_app. split; [done | apply IH].
  - rewrite !Forall_app. repeat split; [done| |apply IH].
    constructor; [|constructor]. exact (Hs false last_run eq_refl eq_refl Hud eq_refl).
Qed.
End Loop_trace.

(** X10: an exception that leaves a tick leaves the loop at once, in
    every mode: the run ends with that exception, with the operations and
    the store of the tick that raised, and no sleep or further tick
    follows. *)
Theorem exception_leaves_the_loop (registry : Registries) (options : Options)
    (schedule_execute : Schedule → Z → Store → Store * (Exc + bool))
    (task_execute : Task → positive * TaskExec.t → Store → Store * (Exc + bool))
    (fuel : nat) (last_run : Z) (s : Store) (e : Exc) :
  let t := tick registry options schedule_execute task_execute s in
  let o := loop registry options schedule_execute task_execute (S fuel) last_run s in
  value t = inl e →
  value o = inl e ∧ emitted o = emitted t ∧ final o = final t.
Proof.
  intros t o Ht. subst t o. rewrite loop_S, iteration_run. cbv zeta.
  revert Ht. generalize (tick registry options schedule_execute task_execute s).
  intros [tr fin v]. cbn [value final emitted]. by intros ->.
Qed.

Lemma exception_leaves_the_loop_witness :
  value (loop Sample.registry Sample.continuous Sample.raising_schedule Task_execute
           3 0 Sample.s0)
  = inl (Error "store unavailable").
Proof.
  apply (exception_leaves_the_loop Sample.registry Sample.continuous
           Sample.raising_schedule Task_execute 2 0 Sample.s0).
  vm_compute. reflexivity.
Defined.

(** X11: under [--once] and under [--until_done] the command never
    sleeps: a tick that did something is followed at once by the next
    one, and a tick that did nothing ends the run. *)
Theorem once_and_until_done_never_sleep (registry : Registries) (options : Options)
    (schedule_execute : Schedule → Z → Store → Store * (Exc + bool))
    (task_execute : Task → positive * TaskExec.t → Store → Store * (Exc + bool))
    (fuel : nat) (s : Store) :
  once options || until_done options = true →
  Forall (λ e, is_sleep e = false)
    (emitted (handle registry options schedule_execute task_execute fuel s)).
Proof.
  intros Hmode. unfold handle. unfold mbind, M_bind, bind, now.
  cbn [value final emitted app]. apply loop_events.
  - intros s'. apply tick_no_sleep.
  - intros s' did last_run' _ Honce Hud ->. rewrite Honce in Hmode.
    simpl in Hmode. rewrite Hmode in Hud. done.
Qed.

Lemma once_and_until_done_never_sleep_witness :
  Forall (λ e, is_sleep e = false)
    (emitted (handle Sample.registry Sample.other_queue Sample.idle_schedule Task_execute
                3 Sample.s0)).
Proof.
  apply (once_and_until_done_never_sleep Sample.registry Sample.other_queue
           Sample.idle_schedule Task_execute 3 Sample.s0).
  reflexivity.
Defined.

(** X12: the command never asks for a sleep of negative length, whatever
    the tick interval and however the clock moves. *)
Theorem sleep_is_never_negative (registry : Registries) (options : Options)
    (schedule_execute : Schedule → Z → Store → Store * (Exc + bool))
    (task_execute : Task → positive * TaskExec.t → Store → Store * (Exc + bool))
    (fuel : nat) (s : Store) (seconds : Z) :
  Sleep seconds
    ∈ emitted (handle registry options schedule_execute task_execute fuel s) →
  0 ≤ seconds.
Proof.
  unfold handle. unfold mbind, M_bind, bind, now. cbn [value final emitted app].
  intros Hin.
  assert (Forall (λ e, match e with Sleep d => 0 ≤ d | _ => True end)
            (emitted (loop registry options schedule_execute task_execute fuel
                        (clock s (reads s)) (with_reads (S (reads s)) s)))) as Hall.
  { apply loop_events.
    - intros s'. eapply Forall_impl; [apply tick_no_sleep|]. by intros [].
    - intros. lia. }
  rewrite Forall_forall in Hall. exact (Hall _ Hin).
Qed.

Lemma sleep_is_never_negative_witness :
  Sleep 0 ∈ emitted (handle Sample.registry Sample.continuous Sample.idle_schedule
                       Task_execute 1 Sample.idle_store)
  ∧ 0 ≤ 0.
Proof.
  assert (Sleep 0 ∈ emitted (handle Sample.registry Sample.continuous Sample.idle_schedule
                               Task_execute 1 Sample.idle_store)) as Hin
    by (apply (bool_decide_unpack _); vm_compute; exact I).
  split; [exact Hin|].
  exact (sleep_is_never_negative Sample.registry Sample.continuous Sample.idle_schedule
           Task_execute 1 Sample.idle_store 0 Hin).
Defined.

(** ** What a tick keeps of the store *)

Section Tick_invariant.
Variable registry : Registries.
Variable options : Options.
Variable schedule_execute : Schedule → Z → Store → Store * (Exc + bool).
Variable task_execute : Task → positive * TaskExec.t → Store → Store * (Exc + bool).

(** A property of the store that every operation of the tick keeps. *)
Variable Inv : Store → Prop.
Hypothesis Inv_schedules : ∀ s, Inv s → Inv (final (disable_orphaned_schedules registry s)).
Hypothesis Inv_tasks : ∀ s, Inv s → Inv (final (disable_orphaned_tasks registry s)).
Hypothesis Inv_schedule_execute : ∀ sch d s, Inv s → Inv (schedule_execute sch d s).1.
Hypothesis Inv_wake : ∀ s, Inv s → Inv (final (wake_up_tasks s)).
Hypothesis Inv_claim : ∀ s, Inv s → Inv (final (claim registry options s)).
Hypothesis Inv_task_execute : ∀ s task pk claimed,
  Inv s → value (claim registry options s) = inr (Some (pk, claimed)) →
  Inv (task_execute task (pk, claimed) (final (claim registry options s))).1.

Lemma check_schedules_invariant l acc s :
  Inv s → Inv (final (check_schedules options schedule_execute l acc s)).
Proof using Inv_schedule_execute.
  revert acc s. induction l as [|schedule l IH]; intros acc s HI; [done|].
  simpl. unfold mbind, M_bind, bind, call. cbn [value final emitted].
  pose proof (Inv_schedule_execute schedule (tick_duration options) s HI) as HI'.
  destruct (schedule_execute schedule (tick_duration options) s).2; [done|].
  cbn [final]. by apply IH.
Qed.

Lemma tick_invariant s :
  Inv s → Inv (final (tick registry options schedule_execute task_execute s)).
Proof using All.
  intros HI. unfold tick. unfold mbind, M_bind, bind.
  pose proof (Inv_schedules s HI) as H1. revert H1.
  rewrite disable_orphaned_schedules_run. cbv zeta. cbn [value final emitted].
  generalize (with_schedule_execs
    (update (orphaned_schedule (schedule_keys (schedules_registry registry)))
       (ScheduleExec.set_state ScheduleExec.INVALID) (schedule_execs s)).2 s).
  intros s1 H1. pose proof (Inv_tasks s1 H1) as H2. revert H2.
  rewrite disable_orphaned_tasks_run. cbv zeta. cbn [value final emitted].
  generalize (with_task_execs
    (update (orphaned_task (task_keys (tasks_registry registry)))
       (TaskExec.set_state TaskExec.INVALID) (task_execs s1)).2 s1).
  intros s2 H2.
  pose proof (check_schedules_invariant
                (for_queue schedule_queue (schedules_registry registry)
                   (queues options) (excluded_queues options)) false s2 H2) as H3.
  revert H3. generalize (check_schedules options schedule_execute
                (for_queue schedule_queue (schedules_registry registry)
                   (queues options) (excluded_queues options)) false s2).
  intros [tr3 s3 [e|did]]; cbn [value final emitted]; intros H3; [done|].
  pose proof (Inv_wake s3 H3) as H4. revert H4.
  rewrite wake_up_tasks_run. cbv zeta. cbn [value final emitted].
  generalize (with_task_execs
    (update (sleeping_due (clock s3 (reads s3)))
       (TaskExec.set_state TaskExec.QUEUED) (task_execs s3)).2
    (with_reads (S (reads s3)) s3)).
  intros s4 H4.
  pose proof (Inv_claim s4 H4) as H5.
  pose proof (λ task pk claimed, Inv_task_execute s4 task pk claimed H4) as H6.
  revert H5 H6. generalize (claim registry options s4).
  intros [tr5 s5 [e|[[pk claimed]|]]]; cbn [value final emitted]; intros H5 H6;
    [done| |done].
  unfold execute_claimed. cbn [fst snd].
  destruct (getitem _ _) as [task|]; [|done].
  unfold mbind, M_bind, bind, call, mret, M_ret, ret. cbn [value final emitted].
  pose proof (H6 task pk claimed eq_refl) as H7.
  by destruct (task_execute task (pk, claimed) s5).2.
Qed.
End Tick_invariant.

Lemma same_identity_refl r : same_identity r r.
Proof. done. Qed.

Lemma keeps_rows_refl s : keeps_rows s s.
Proof. intros k r Hk. by exists r. Qed.

Lemma keeps_rows_trans s1 s2 s3 :
  keeps_rows s1 s2 → keeps_rows s2 s3 → keeps_rows s1 s3.
Proof.
  intros H12 H23 k r Hk. destruct (H12 k r Hk) as (r' & Hk' & ? & ? & ?).
  destruct (H23 k r' Hk') as (r'' & Hk'' & ? & ? & ?).
  exists r''. split; [done|]. unfold same_identity. repeat split; congruence.
Qed.

Lemma keeps_rows_update P st s :
  keeps_rows s (with_task_execs (update P (TaskExec.set_state st) (task_execs s)).2 s).
Proof.
  intros k r Hk. cbn [task_execs with_task_execs]. rewrite update_lookup, Hk. simpl.
  destruct (P r); by eexists.
Qed.

Lemma keeps_rows_claim registry options s :
  keeps_rows s (final (claim registry options s)).
Proof.
  rewrite claim_run.
  destruct (first _) as [[pk row]|] eqn:Hfirst; cbv zeta; cbn [final];
    [|apply keeps_rows_refl].
  apply first_tasks_execs_Some in Hfirst as (Hpk & _).
  intros k r Hk. cbn [task_execs with_task_execs with_reads].
  destruct (decide (pk = k)) as [->|Hne].
  - rewrite lookup_insert_eq. eexists. split; [done|].
    rewrite Hk in Hpk. by injection Hpk as <-.
  - rewrite lookup_insert_ne by done. by exists r.
Qed.

Lemma claim_stores_claimed registry options s pk claimed :
  value (claim registry options s) = inr (Some (pk, claimed)) →
  task_execs (final (claim registry options s)) !! pk = Some claimed.
Proof.
  rewrite claim_run. destruct (first _) as [[pk' row]|]; [|done].
  cbv zeta. cbn [value final task_execs with_task_execs]. intros [= -> <-].
  apply lookup_insert_eq.
Qed.

(** X13: a tick never deletes a TaskExec row and never changes the name,
    the [due] or the [created] of one, as long as the schedules and the
    executor of the claimed row do not. *)
Theorem tick_keeps_rows (registry : Registries) (options : Options)
    (schedule_execute : Schedule → Z → Store → Store * (Exc + bool))
    (task_execute : Task → positive * TaskExec.t → Store → Store * (Exc + bool))
    (s : Store) :
  (∀ sch d s', keeps_rows s' (schedule_execute sch d s').1) →
  (∀ task pk row s', task_execs s' !! pk = Some row →
     keeps_rows s' (task_execute task (pk, row) s').1) →
  keeps_rows s (final (tick registry options schedule_execute task_execute s)).
Proof.
  intros Hsched Htask.
  apply (tick_invariant registry options schedule_execute task_execute (keeps_rows s)).
  - intros s' HI. rewrite disable_orphaned_schedules_run. cbv zeta. cbn [final].
    eapply keeps_rows_trans; [exact HI|]. intros k r Hk. by exists r.
  - intros s' HI. rewrite disable_orphaned_tasks_run. cbv zeta. cbn [final].
    eapply keeps_rows_trans; [exact HI | apply keeps_rows_update].
  - intros sch d s' HI. eapply keeps_rows_trans; [exact HI | apply Hsched].
  - intros s' HI. rewrite wake_up_tasks_run. cbv zeta. cbn [final].
    eapply keeps_rows_trans; [exact HI|].
    intros k r Hk. cbn [task_execs with_task_execs with_reads].
    rewrite update_lookup, Hk. simpl. destruct (sleeping_due _ r); by eexists.
  - intros s' HI. eapply keeps_rows_trans; [exact HI | apply keeps_rows_claim].
  - intros s' task pk claimed HI Hclaim.
    eapply keeps_rows_trans; [exact HI|].
    eapply keeps_rows_trans; [apply keeps_rows_claim|].
    apply Htask. by apply claim_stores_claimed.
  - apply keeps_rows_refl.
Qed.

Lemma tick_keeps_rows_witness :
  keeps_rows Sample.s0
    (final (tick Sample.registry Sample.continuous Sample.idle_schedule Sample.mark_done
              Sample.s0)).
Proof.
  apply (tick_keeps_rows Sample.registry Sample.continuous Sample.idle_schedule
           Sample.mark_done Sample.s0).
  - intros sch d s'. apply keeps_rows_refl.
  - intros task pk row s' Hpk k r Hk. simpl.
    destruct (decide (pk = k)) as [->|Hne].
    + rewrite lookup_insert_eq. eexists. split; [reflexivity|].
      rewrite Hk in Hpk. injection Hpk as <-. split; [|split]; reflexivity.
    + rewrite lookup_insert_ne by exact Hne. exists r. split; [exact Hk|].
      apply same_identity_refl.
Defined.

Lemma settled_not_queued_for keys names r :
  settled keys r → queued_for names r = false.
Proof.
  unfold queued_for. intros [Hst|[_ [Hst|[Hst|Hst]]]]; by rewrite Hst.
Qed.

(** X14: a tick leaves alone every row that is INVALID, and every row
    that is PROCESSING, SUCCEEDED or FAILED under a registered name: no
    such row is invalidated, woken, claimed again or handed to the
    executor, so it is exactly as before as long as the schedules do not
    write it and the executor writes nothing but the row it was given. *)
Theorem settled_rows_are_left_alone (registry : Registries) (options : Options)
    (schedule_execute : Schedule → Z → Store → Store * (Exc + bool))
    (task_execute : Task → positive * TaskExec.t → Store → Store * (Exc + bool))
    (s : Store) (k : positive) (r : TaskExec.t) :
  task_execs s !! k = Some r →
  settled (task_keys (tasks_registry registry)) r →
  (∀ sch d s', task_execs (schedule_execute sch d s').1 !! k = task_execs s' !! k) →
  (∀ task pk row s', pk ≠ k →
     task_execs (task_execute task (pk, row) s').1 !! k = task_execs s' !! k) →
  task_execs (final (tick registry options schedule_execute task_execute s)) !! k
  = Some r.
Proof.
  intros Hk Hsettled Hsched Htask.
  assert (Hclaim : ∀ s', task_execs s' !! k = Some r →
            task_execs (final (claim registry options s')) !! k = Some r
            ∧ ∀ pk claimed, value (claim registry options s') = inr (Some (pk, claimed)) →
                pk ≠ k).
  { intros s' HI. rewrite claim_run.
    destruct (first _) as [[pk row]|] eqn:Hfirst; cbv zeta;
      cbn [value final task_execs with_task_execs with_reads]; [|done].
    apply first_tasks_execs_Some in Hfirst as (Hpk & Hq & _).
    assert (pk ≠ k) as Hne.
    { intros ->. rewrite HI in Hpk. injection Hpk as <-.
      by rewrite (settled_not_queued_for _ _ _ Hsettled) in Hq. }
    split; [by rewrite lookup_insert_ne | by intros ? ? [= <- _]]. }
  apply (tick_invariant registry options schedule_execute task_execute
           (λ s', task_execs s' !! k = Some r)); [..|exact Hk].
  - intros s' HI. by rewrite disable_orphaned_schedules_run.
  - intros s' HI. rewrite disable_orphaned_tasks_run. cbv zeta.
    cbn [final task_execs with_task_execs]. apply update_lookup_other; [done|].
    destruct (orphaned_task _ r) eqn:E; [|done].
    apply orphaned_task_true in E as [Hst Hname].
    destruct Hsettled as [?|[? _]]; done.
  - intros sch d s' HI. by rewrite Hsched.
  - intros s' HI. rewrite wake_up_tasks_run. cbv zeta.
    cbn [final task_execs with_task_execs with_reads].
    apply update_lookup_other; [done|].
    destruct (sleeping_due _ r) eqn:E; [|done].
    apply sleeping_due_true in E as [Hst _].
    destruct Hsettled as [Hst'|[_ [Hst'|[Hst'|Hst']]]]; congruence.
  - intros s' HI. by apply Hclaim.
  - intros s' task pk claimed HI Hc.
    destruct (Hclaim s' HI) as [Hkept Hne].
    rewrite Htask; [done|]. by apply (Hne pk claimed).
Qed.

Lemma settled_rows_are_left_alone_witness :
  let s := Sample.store [(1%positive, Sample.row "cleanup" TaskExec.QUEUED 5 1);
                         (9%positive, Sample.row "send_email" TaskExec.PROCESSING 1 1)]
             [] in
  task_execs (final (tick Sample.registry Sample.continuous Sample.idle_schedule
                       Sample.mark_done s)) !! 9%positive
  = Some (Sample.row "send_email" TaskExec.PROCESSING 1 1).
Proof.
  intros s.
  apply (settled_rows_are_left_alone Sample.registry Sample.continuous
           Sample.idle_schedule Sample.mark_done s 9%positive).
  - reflexivity.
  - right. split; [apply (bool_decide_unpack _); vm_compute; exact I|]. by left.
  - reflexivity.
  - intros task pk row s' Hne. simpl. apply lookup_insert_ne. exact Hne.
Defined.
